(** * Identifier and reference model of [model/span.go]

    A shallow embedding of the Go package [model]: the TraceID and SpanID
    codecs, the Flags bit mask and the parent-reference logic of [Span],
    followed by the properties stated about them.

    Conventions of the embedding:
    - a Go [string] and a Go [[]byte] are both byte sequences and are
      modelled by [string] (a list of 8-bit [ascii]); [len] is
      [String.length];
    - [uint64], [uint32] and [byte] values are integers in [Z], with the
      wrap-around of the machine operations written out;
    - a Go function returning [(T, error)] returns a pair whose second
      component is [None] for the [nil] error;
    - a method with a pointer receiver returns the new value of the
      receiver. *)

From Stdlib Require Import ZArith Lia List Bool Ascii String.
Import ListNotations.

Local Open Scope string_scope.
Local Open Scope Z_scope.

(** ** Errors *)

(** The two sentinel errors a [*strconv.NumError] can wrap. *)
Inductive NumErr : Type :=
| ErrSyntax
| ErrRange.

(** The error values the package produces: a message built by
    [fmt.Errorf], or the [*strconv.NumError] of a failed conversion, which
    records the function, the offending input and the sentinel. *)
Inductive error : Type :=
| Errorf (msg : string)
| NumError (Func Num : string) (Err : NumErr).

(** ** Bytes and slices *)

(** The numeric value of a byte. *)
Definition byte_val (c : ascii) : Z := Z.of_N (N_of_ascii c).

(** The double quote character, byte 34. *)
Definition dquote : ascii := "034"%char.

(** [index s i] is [s[i]], defined for [i < len(s)]. *)
Definition index (s : string) (i : nat) : option ascii := String.get i s.

(** [slice s lo hi] is [s[lo:hi]], for [lo <= hi <= len(s)]. *)
Definition slice (s : string) (lo hi : nat) : string :=
  substring lo (hi - lo) s.

(** ** The parts of the Go standard library the package calls *)

(** [strconv.ParseUint] and the integer formatting behind [fmt.Sprintf]
    are not code of the package.  They are rendered after their Go
    sources, at the instances the package uses: base 16 and bit size 64
    for the conversion, the verbs [%x] and [%016x] on a [uint64] for the
    formatting. *)

Module strconv.

Definition maxUint64 : Z := 2 ^ 64 - 1.

Definition syntaxError (fn str : string) : error := NumError fn str ErrSyntax.
Definition rangeError (fn str : string) : error := NumError fn str ErrRange.

(** [lower(c)] is [c | ('x' - 'X')]. *)
Definition lower (c : Z) : Z := Z.lor c 32.

(** The [switch] of the conversion loop: the digit a byte stands for in
    a base up to 36, if any. *)
Definition digit_of (c : Z) : option Z :=
  if (48 <=? c) && (c <=? 57) then Some (c - 48)
  else if (97 <=? lower c) && (lower c <=? 122) then Some (lower c - 97 + 10)
  else None.

(** The loop [for _, c := range []byte(s)] of [ParseUint] at base 16 and
    bit size 64: [cutoff] is [maxUint64/16 + 1], [maxVal] is
    [1<<64 - 1], and [n] is the value accumulated so far. *)
Fixpoint parse_loop (s0 : string) (s : string) (n : Z) : Z * option error :=
  match s with
  | EmptyString => (n, None)
  | String ch rest =>
      match digit_of (byte_val ch) with
      | None => (0, Some (syntaxError "ParseUint" s0))
      | Some d =>
          if d >=? 16 then (0, Some (syntaxError "ParseUint" s0))
          else if n >=? maxUint64 / 16 + 1
          then (maxUint64, Some (rangeError "ParseUint" s0))
          else
            let n16 := (n * 16) mod 2 ^ 64 in
            let n1 := (n16 + d) mod 2 ^ 64 in
            if (n1 <? n16) || (n1 >? maxUint64)
            then (maxUint64, Some (rangeError "ParseUint" s0))
            else parse_loop s0 rest n1
      end
  end.

(** [strconv.ParseUint(s, 16, 64)], the only instance the package uses.
    With an explicit base no prefix and no underscore is accepted. *)
Definition ParseUint (s : string) : Z * option error :=
  match s with
  | EmptyString => (0, Some (syntaxError "ParseUint" s))
  | _ => parse_loop s s 0
  end.

End strconv.

Module fmt.

(** The digit table of the lower-case verbs. *)
Definition ldigits : string := "0123456789abcdefx".

(** [digits[d]]. *)
Definition digit (d : Z) : ascii :=
  match String.get (Z.to_nat d) ldigits with
  | Some c => c
  | None => "000"%char
  end.

(** The capacity of the formatter's integer buffer. *)
Definition intbuf_len : nat := 68.

(** [for u >= 16 { i--; buf[i] = digits[u&0xF]; u >>= 4 }], where [buf]
    is the part [buf[i:]] written so far; the loop cannot write below
    the start of the buffer. *)
Fixpoint hex_loop (room : nat) (u : Z) (buf : string) : Z * string :=
  match room with
  | O => (u, buf)
  | S room' =>
      if 16 <=? u
      then hex_loop room' (Z.shiftr u 4) (String (digit (Z.land u 15)) buf)
      else (u, buf)
  end.

(** [for i > 0 && prec > len(buf)-i { i--; buf[i] = '0' }]. *)
Fixpoint zero_loop (room : nat) (prec : nat) (buf : string) : string :=
  match room with
  | O => buf
  | S room' =>
      if (String.length buf <? prec)%nat
      then zero_loop room' prec (String "0"%char buf)
      else buf
  end.

(** [writePadding(n)] with the zero flag cleared: [n] spaces, none when
    [n <= 0]. *)
Fixpoint writePadding (n : nat) : string :=
  match n with
  | O => EmptyString
  | S n' => String " "%char (writePadding n')
  end.

(** [pad(b)] with the minus flag unset: padding on the left up to the
    width; the bytes of [b] are digits, one rune each. *)
Definition pad (widPresent : bool) (wid : nat) (b : string) : string :=
  if negb widPresent || (wid =? 0)%nat then b
  else (writePadding (wid - String.length b) ++ b)%string.

(** [fmtInteger] for an unsigned value at base 16 with the lower-case
    digits, no sign, no prefix and no precision: with the zero flag and a
    width, the width is the number of digits to reach with zeros.  The
    buffer is the formatter's own: [3 + wid] stays below its capacity for
    the widths used here. *)
Definition fmtInteger (u : Z) (widPresent : bool) (wid : nat) (zero : bool)
  : string :=
  let prec := if zero && widPresent then wid else 0%nat in
  let '(u', buf) := hex_loop (intbuf_len - 1) u EmptyString in
  let buf := String (digit u') buf in
  let buf := zero_loop (intbuf_len - String.length buf) prec buf in
  pad widPresent wid buf.

(** The verb [%x] applied to a [uint64]. *)
Definition verb_x (u : Z) : string := fmtInteger u false 0 false.

(** The verb [%016x] applied to a [uint64]: flag [0], width 16. *)
Definition verb_016x (u : Z) : string := fmtInteger u true 16 true.

End fmt.

(** ** TraceID *)

(** Modelled from the spec: the declaration of [TraceID] is generated
    code that is not among the sources; [span.go] keeps the former
    declaration in a comment.  A TraceID is a pair of unsigned 64-bit
    integers, [High] and [Low], compared field by field. *)
Record TraceID : Type := mkTraceID { High : Z; Low : Z }.

(** [TraceID{}]. *)
Definition TraceID_zero : TraceID := mkTraceID 0 0.

Definition TraceID_eqb (a b : TraceID) : bool :=
  (High a =? High b) && (Low a =? Low b).

(** [func (t TraceID) String() string]. *)
Definition TraceID_String (t : TraceID) : string :=
  if High t =? 0 then fmt.verb_x (Low t)
  else fmt.verb_x (High t) ++ fmt.verb_016x (Low t).

(** [func TraceIDFromString(s string) (TraceID, error)]. *)
Definition TraceIDFromString (s : string) : TraceID * option error :=
  if (32 <? String.length s)%nat then
    (TraceID_zero,
     Some (Errorf ("TraceID cannot be longer than 32 hex characters: " ++ s)))
  else if (16 <? String.length s)%nat then
    let hiLen := (String.length s - 16)%nat in
    match strconv.ParseUint (slice s 0 hiLen) with
    | (_, Some err) => (TraceID_zero, Some err)
    | (hi, None) =>
        match strconv.ParseUint (slice s hiLen (String.length s)) with
        | (_, Some err) => (TraceID_zero, Some err)
        | (lo, None) => (mkTraceID hi lo, None)
        end
    end
  else
    match strconv.ParseUint s with
    | (_, Some err) => (TraceID_zero, Some err)
    | (lo, None) => (mkTraceID 0 lo, None)
    end.

(** [func (t TraceID) MarshalJSONPB(m) ([]byte, error)]. *)
Definition TraceID_MarshalJSONPB (t : TraceID) : string * option error :=
  let s := TraceID_String t in
  (String dquote (s ++ String dquote EmptyString), None).

(** [b[i] != c] for an index the caller has checked to be in range. *)
Definition byte_differs (b : string) (i : nat) (c : ascii) : bool :=
  match index b i with
  | Some x => negb (Ascii.eqb x c)
  | None => true
  end.

(** [func (t *TraceID) UnmarshalJSONPB(u, b []byte) error]:
    the result is the value of [*t] afterwards and the error. *)
Definition TraceID_UnmarshalJSONPB (t : TraceID) (b : string)
  : TraceID * option error :=
  if (String.length b <? 3)%nat then
    (t, Some (Errorf ("TraceID JSON string cannot be shorter than 3 chars: " ++ b)))
  else if byte_differs b 0 dquote
          || byte_differs b (String.length b - 1) dquote then
    (t, Some (Errorf ("TraceID JSON string must be enclosed in quotes: " ++ b)))
  else
    match TraceIDFromString (slice b 1 (String.length b - 1)) with
    | (_, Some err) => (t, Some err)
    | (q, None) => (q, None)
    end.

(** [func (t TraceID) MarshalText() ([]byte, error)]; the [nil] slice is
    the empty byte sequence. *)
Definition TraceID_MarshalText (t : TraceID) : string * option error :=
  (EmptyString,
   Some (Errorf "unsupported method TraceID.MarshalText; please use github.com/gogo/protobuf/jsonpb for marshalling")).

(** [func (t *TraceID) UnmarshalText(text []byte) error]. *)
Definition TraceID_UnmarshalText (t : TraceID) (text : string)
  : TraceID * option error :=
  (t,
   Some (Errorf "unsupported method TraceID.UnmarshalText; please use github.com/gogo/protobuf/jsonpb for marshalling")).

(** ** SpanID *)

(** [type SpanID uint64]. *)
Definition SpanID : Type := Z.

(** [func (s SpanID) String() string]. *)
Definition SpanID_String (s : SpanID) : string := fmt.verb_x s.

(** [func SpanIDFromString(s string) (SpanID, error)]. *)
Definition SpanIDFromString (s : string) : SpanID * option error :=
  if (16 <? String.length s)%nat then
    (0, Some (Errorf ("SpanID cannot be longer than 16 hex characters: " ++ s)))
  else
    match strconv.ParseUint s with
    | (_, Some err) => (0, Some err)
    | (id, None) => (id, None)
    end.

(** [func (s SpanID) MarshalJSONPB(m) ([]byte, error)]. *)
Definition SpanID_MarshalJSONPB (s : SpanID) : string * option error :=
  (String dquote (SpanID_String s ++ String dquote EmptyString), None).

(** [func (s SpanID) MarshalText() ([]byte, error)]. *)
Definition SpanID_MarshalText (s : SpanID) : string * option error :=
  (SpanID_String s, None).

(** [func (s *SpanID) UnmarshalJSONPB(u, b []byte) error]. *)
Definition SpanID_UnmarshalJSONPB (s : SpanID) (b : string)
  : SpanID * option error :=
  if (String.length b <? 3)%nat then
    (s, Some (Errorf ("SpanID JSON string cannot be shorter than 3 chars: " ++ b)))
  else if byte_differs b 0 dquote
          || byte_differs b (String.length b - 1) dquote then
    (s, Some (Errorf ("SpanID JSON string must be enclosed in quotes: " ++ b)))
  else
    match SpanIDFromString (slice b 1 (String.length b - 1)) with
    | (_, Some err) => (s, Some err)
    | (q, None) => (q, None)
    end.

(** ** Flags *)

(** [type Flags uint32]. *)
Definition Flags : Type := Z.

Definition sampledFlag : Flags := 1.
Definition debugFlag : Flags := 2.

(** [func (f *Flags) setFlags(bit Flags)]: the new value of [*f]. *)
Definition setFlags (f bit : Flags) : Flags := Z.lor f bit.

(** [func (f *Flags) SetSampled()]. *)
Definition SetSampled (f : Flags) : Flags := setFlags f sampledFlag.

(** [func (f *Flags) SetDebug()]. *)
Definition SetDebug (f : Flags) : Flags := setFlags f debugFlag.

(** [func (f Flags) checkFlags(bit Flags) bool]. *)
Definition checkFlags (f bit : Flags) : bool := Z.land f bit =? bit.

(** [func (f Flags) IsSampled() bool]. *)
Definition IsSampled (f : Flags) : bool := checkFlags f sampledFlag.

(** [func (f Flags) IsDebug() bool]. *)
Definition IsDebug (f : Flags) : bool := checkFlags f debugFlag.

(** ** References and spans *)

(** Modelled from the spec: the declaration of [SpanRefType] is generated
    code that is not among the sources.  It is an integer-backed
    enumeration with [ChildOf = 0] and [FollowsFrom = 1]; any other
    integer is a valid value without a name. *)
Definition SpanRefType : Type := Z.

Definition ChildOf : SpanRefType := 0.
Definition FollowsFrom : SpanRefType := 1.

(** Modelled from the spec: the declaration of [SpanRef] is generated code
    that is not among the sources.  A reference is
    [{ traceID, spanID, refType }]. *)
Record SpanRef : Type := mkSpanRef {
  Ref_TraceID : TraceID;
  Ref_SpanID : SpanID;
  Ref_RefType : SpanRefType
}.

(** Modelled from the spec: the declaration of [Span] is generated code
    that is not among the sources; [span.go] keeps the former declaration
    in a comment.  Of its fields the embedding keeps the identifiers, the
    operation name, the ordered references and the flags; the functions
    embedded here neither read nor write the others. *)
Record Span : Type := mkSpan {
  Span_TraceID : TraceID;
  Span_SpanID : SpanID;
  Span_OperationName : string;
  Span_References : list SpanRef;
  Span_Flags : Flags
}.

(** [s.References = refs]. *)
Definition set_References (s : Span) (refs : list SpanRef) : Span :=
  mkSpan (Span_TraceID s) (Span_SpanID s) (Span_OperationName s) refs
         (Span_Flags s).

(** [ref.SpanID = id]. *)
Definition set_SpanID (r : SpanRef) (id : SpanID) : SpanRef :=
  mkSpanRef (Ref_TraceID r) id (Ref_RefType r).

(** Modelled from the spec: [NewChildOfRef] is defined in a file of the
    package that is not among the sources.  It is the convenience
    constructor returning [{traceID, spanID, ChildOf}]. *)
Definition NewChildOfRef (traceID : TraceID) (spanID : SpanID) : SpanRef :=
  mkSpanRef traceID spanID ChildOf.

(** [func MaybeAddParentSpanID(traceID TraceID, parentSpanID SpanID,
    refs []SpanRef) []SpanRef].  The function is defined in [spanref.go]
    of the package, a file that is not among the sources here; of that
    file the sources hold the test [TestMaybeAddParentSpanID] and the
    call in [ReplaceParentID].  The body is the one of that file: [refs]
    is returned when [parentSpanID] is 0 and when a reference already has
    that span id and the given trace id, whatever its type; otherwise the
    new [ChildOf] reference is appended to an empty [refs], and else put
    in front of a copy of [refs].  The specification describes the second
    case otherwise, by a reference of the trace with type [ChildOf]. *)
Definition MaybeAddParentSpanID (traceID : TraceID) (parentSpanID : SpanID)
    (refs : list SpanRef) : list SpanRef :=
  if parentSpanID =? 0 then refs
  else if existsb (fun r => (Ref_SpanID r =? parentSpanID)
                            && TraceID_eqb (Ref_TraceID r) traceID) refs
  then refs
  else
    let newRef := NewChildOfRef traceID parentSpanID in
    match refs with
    | [] => refs ++ [newRef]
    | _ :: _ => newRef :: refs
    end.

(** The loop of [ParentSpanID] over [s.References[i:]]. *)
Fixpoint parent_loop (traceID : TraceID) (refs : list SpanRef) : SpanID :=
  match refs with
  | [] => 0
  | ref :: rest =>
      if TraceID_eqb (Ref_TraceID ref) traceID && (Ref_RefType ref =? ChildOf)
      then Ref_SpanID ref
      else parent_loop traceID rest
  end.

(** [func (s *Span) ParentSpanID() SpanID]. *)
Definition ParentSpanID (s : Span) : SpanID :=
  parent_loop (Span_TraceID s) (Span_References s).

(** The loop of [ReplaceParentID] over [s.References[i:]]: the references
    after the assignment when an entry is found, [None] when the loop
    runs to its end. *)
Fixpoint replace_loop (traceID : TraceID) (oldParentID newParentID : SpanID)
    (refs : list SpanRef) : option (list SpanRef) :=
  match refs with
  | [] => None
  | ref :: rest =>
      if (Ref_SpanID ref =? oldParentID) && TraceID_eqb (Ref_TraceID ref) traceID
      then Some (set_SpanID ref newParentID :: rest)
      else
        match replace_loop traceID oldParentID newParentID rest with
        | Some rest' => Some (ref :: rest')
        | None => None
        end
  end.

(** [func (s *Span) ReplaceParentID(newParentID SpanID)]: the span
    afterwards. *)
Definition ReplaceParentID (s : Span) (newParentID : SpanID) : Span :=
  let oldParentID := ParentSpanID s in
  match replace_loop (Span_TraceID s) oldParentID newParentID
                     (Span_References s) with
  | Some refs => set_References s refs
  | None =>
      set_References s
        (MaybeAddParentSpanID (Span_TraceID s) newParentID (Span_References s))
  end.

(** ** Vocabulary of the statements *)

(** An entry is a parent link of trace [traceID]: same trace, type
    [ChildOf]. *)
Definition parent_link (traceID : TraceID) (r : SpanRef) : Prop :=
  Ref_TraceID r = traceID /\ Ref_RefType r = ChildOf.

(** An entry is what the scan of [ReplaceParentID] looks for. *)
Definition replace_target (traceID : TraceID) (oldParentID : SpanID)
    (r : SpanRef) : Prop :=
  Ref_SpanID r = oldParentID /\ Ref_TraceID r = traceID.

(** The value of a hexadecimal digit, in either case. *)
Definition hex_digit (c : ascii) : option Z :=
  let v := byte_val c in
  if (48 <=? v) && (v <=? 57) then Some (v - 48)
  else if (97 <=? v) && (v <=? 102) then Some (v - 87)
  else if (65 <=? v) && (v <=? 70) then Some (v - 55)
  else None.

(** A lower-case hexadecimal digit: [0-9a-f]. *)
Definition lower_hex_digit (c : ascii) : bool :=
  let v := byte_val c in
  ((48 <=? v) && (v <=? 57)) || ((97 <=? v) && (v <=? 102)).

(** Every byte of the string is a hexadecimal digit. *)
Fixpoint all_hex (s : string) : bool :=
  match s with
  | EmptyString => true
  | String c rest =>
      match hex_digit c with
      | Some _ => all_hex rest
      | None => false
      end
  end.

(** Every byte of the string is a lower-case hexadecimal digit. *)
Fixpoint all_lower_hex (s : string) : bool :=
  match s with
  | EmptyString => true
  | String c rest => lower_hex_digit c && all_lower_hex rest
  end.

(** A hexadecimal numeral: one digit or more, nothing else. *)
Definition valid_hex (s : string) : bool :=
  match s with
  | EmptyString => false
  | _ => all_hex s
  end.

(** The number a string of hexadecimal digits denotes, most significant
    digit first, continuing from [acc]. *)
Fixpoint hex_value_from (acc : Z) (s : string) : Z :=
  match s with
  | EmptyString => acc
  | String c rest =>
      hex_value_from
        (acc * 16 + match hex_digit c with Some d => d | None => 0 end) rest
  end.

Definition hex_value (s : string) : Z := hex_value_from 0 s.

(** A numeral without padding: the single digit [0], or a numeral whose
    first digit is not [0]. *)
Definition unpadded (s : string) : bool :=
  match s with
  | EmptyString => false
  | String c EmptyString => true
  | String c _ => negb (Ascii.eqb c "0"%char)
  end.

(** [s] is the lower-case hexadecimal rendering of [v] without leading
    zero padding. *)
Definition hex_rendering (v : Z) (s : string) : Prop :=
  all_lower_hex s = true /\ hex_value s = v /\ unpadded s = true.

(** [s] is the lower-case hexadecimal rendering of [v] padded with zeros
    to exactly 16 digits. *)
Definition hex16_rendering (v : Z) (s : string) : Prop :=
  all_lower_hex s = true /\ hex_value s = v /\ String.length s = 16%nat.

(** A [uint64] value. *)
Definition uint64 (v : Z) : Prop := 0 <= v < 2 ^ 64.

(** The wire form of a text: the text between two double quotes. *)
Definition quoted (body : string) : string :=
  String dquote (body ++ String dquote "").

(** ** Sample values *)

(** The trace of the sample spans, and another trace. *)
Definition sample_trace : TraceID := mkTraceID 0 1.
Definition other_trace : TraceID := mkTraceID 42 0.

(** A span whose parent link comes after a [ChildOf] reference into
    another trace and before a second link of its own trace. *)
Definition sample_span : Span :=
  mkSpan sample_trace 9 "op"
    [ mkSpanRef other_trace 789 ChildOf;
      mkSpanRef sample_trace 123 ChildOf;
      mkSpanRef sample_trace 456 ChildOf ]
    0.

(** A span without parent link whose only reference, of type
    [FollowsFrom], has the zero span id. *)
Definition orphan_span : Span :=
  mkSpan sample_trace 9 "op" [ mkSpanRef sample_trace 0 FollowsFrom ] 0.

(** A span whose parent link comes after a [FollowsFrom] reference to
    the same span. *)
Definition shadowed_span : Span :=
  mkSpan sample_trace 9 "op"
    [ mkSpanRef sample_trace 123 FollowsFrom;
      mkSpanRef sample_trace 123 ChildOf ]
    0.

(** The wire form of the TraceID [{0, 0x42}]. *)
Definition sample_wire : string := String dquote ("42" ++ String dquote "").

(** * Properties *)

(** ** The functions on the values of the package's tests *)

Section Replay.

Example String_low_only : TraceID_String (mkTraceID 0 66) = "42".
Proof. reflexivity. Qed.

Example String_high_and_low :
  TraceID_String (mkTraceID 42 67) = "2a0000000000000043".
Proof. reflexivity. Qed.

Example String_largest :
  TraceID_String (mkTraceID (2 ^ 64 - 1) (2 ^ 64 - 1))
  = "ffffffffffffffffffffffffffffffff".
Proof. vm_compute. reflexivity. Qed.

Example FromString_upper_case :
  TraceIDFromString "AbC" = (mkTraceID 0 2748, None).
Proof. vm_compute. reflexivity. Qed.

Example FromString_empty :
  TraceIDFromString "" = (TraceID_zero, Some (NumError "ParseUint" "" ErrSyntax)).
Proof. reflexivity. Qed.

Example FromString_prefix_refused :
  SpanIDFromString "0x1" = (0, Some (NumError "ParseUint" "0x1" ErrSyntax)).
Proof. vm_compute. reflexivity. Qed.

Example FromString_too_long :
  TraceIDFromString "000000000000000000000000000000001"
  = (TraceID_zero,
     Some (Errorf "TraceID cannot be longer than 32 hex characters: 000000000000000000000000000000001")).
Proof. reflexivity. Qed.

(** Beyond 16 digits the conversion itself reports the overflow. *)
Example ParseUint_range :
  strconv.ParseUint "10000000000000000"
  = (strconv.maxUint64, Some (NumError "ParseUint" "10000000000000000" ErrRange)).
Proof. vm_compute. reflexivity. Qed.

Example MarshalJSONPB_sample :
  TraceID_MarshalJSONPB (mkTraceID 0 66) = (sample_wire, None).
Proof. reflexivity. Qed.

(** The steps of [TestMaybeAddParentSpanID], on a span whose parent is
    123. *)
Example test_parent : ParentSpanID sample_span = 123.
Proof. reflexivity. Qed.

Example test_add_zero :
  MaybeAddParentSpanID sample_trace 0 (Span_References sample_span)
  = Span_References sample_span.
Proof. reflexivity. Qed.

Example test_add_again :
  MaybeAddParentSpanID sample_trace 123 (Span_References sample_span)
  = Span_References sample_span.
Proof. reflexivity. Qed.

Example test_add_to_empty :
  ParentSpanID
    (set_References sample_span (MaybeAddParentSpanID sample_trace 123 []))
  = 123.
Proof. reflexivity. Qed.

Example test_add_first :
  MaybeAddParentSpanID sample_trace 123 [NewChildOfRef other_trace 789]
  = [NewChildOfRef sample_trace 123; NewChildOfRef other_trace 789].
Proof. reflexivity. Qed.

End Replay.

(** ** Flags *)

Section FlagsBits.

(** Masking with a single bit leaves that bit or nothing. *)
Lemma land_pow2 (f k : Z) :
  0 <= k -> Z.land f (2 ^ k) = if Z.testbit f k then 2 ^ k else 0.
Proof.
  intros Hk. apply Z.bits_inj'. intros n Hn.
  rewrite Z.land_spec, Z.pow2_bits_eqb by assumption.
  destruct (Z.eqb_spec k n) as [->|Hne].
  - destruct (Z.testbit f n) eqn:E; simpl.
    + rewrite Z.pow2_bits_true; auto.
    + rewrite Z.bits_0; reflexivity.
  - rewrite andb_false_r.
    destruct (Z.testbit f k).
    + rewrite Z.pow2_bits_false; auto.
    + rewrite Z.bits_0; reflexivity.
Qed.

Lemma checkFlags_pow2 (f k : Z) :
  0 <= k -> checkFlags f (2 ^ k) = Z.testbit f k.
Proof.
  intros Hk. unfold checkFlags. rewrite land_pow2 by assumption.
  destruct (Z.testbit f k).
  - apply Z.eqb_refl.
  - apply Z.eqb_neq. assert (0 < 2 ^ k) by (apply Z.pow_pos_nonneg; lia). lia.
Qed.

Lemma setFlags_pow2_bits (f k i : Z) :
  0 <= k ->
  Z.testbit (setFlags f (2 ^ k)) i = if i =? k then (0 <=? i) && true else Z.testbit f i.
Proof.
  intros Hk. unfold setFlags. rewrite Z.lor_spec.
  destruct (Z.eqb_spec i k) as [->|Hne].
  - rewrite Z.pow2_bits_true by assumption.
    rewrite orb_true_r. symmetry. rewrite andb_true_r. apply Z.leb_le; assumption.
  - destruct (Z.ltb_spec i 0).
    + rewrite !Z.testbit_neg_r by assumption. reflexivity.
    + rewrite Z.pow2_bits_false by lia. apply orb_false_r.
Qed.

Lemma setFlags_range (f bit n : Z) :
  0 < n -> 0 <= f < 2 ^ n -> 0 <= bit < 2 ^ n ->
  0 <= setFlags f bit < 2 ^ n.
Proof.
  intros Hn Hf Hb. unfold setFlags.
  assert (H0 : 0 <= Z.lor f bit) by (apply Z.lor_nonneg; lia).
  split; [exact H0|].
  destruct (Z.eq_dec (Z.lor f bit) 0) as [->|Hnz].
  - lia.
  - apply Z.log2_lt_pow2; [lia|].
    rewrite Z.log2_lor by lia.
    apply Z.max_lub_lt.
    + destruct (Z.eq_dec f 0) as [->|]; [simpl; lia|].
      apply Z.log2_lt_pow2; lia.
    + destruct (Z.eq_dec bit 0) as [->|]; [simpl; lia|].
      apply Z.log2_lt_pow2; lia.
Qed.

End FlagsBits.

(** C9.  For every 32-bit [Flags] value [f]: [SetSampled] sets bit 0 and
    [SetDebug] sets bit 1, every other bit keeps the value it has in [f]
    and the result is again a 32-bit value; [IsSampled] and [IsDebug]
    hold exactly when bit 0, respectively bit 1, of [f] is set. *)
Theorem Flags_set_and_check (f : Flags) (Hf : 0 <= f < 2 ^ 32) :
  (0 <= SetSampled f < 2 ^ 32
   /\ Z.testbit (SetSampled f) 0 = true
   /\ forall i, i <> 0 -> Z.testbit (SetSampled f) i = Z.testbit f i)
  /\ (0 <= SetDebug f < 2 ^ 32
      /\ Z.testbit (SetDebug f) 1 = true
      /\ forall i, i <> 1 -> Z.testbit (SetDebug f) i = Z.testbit f i)
  /\ (IsSampled f = true <-> Z.testbit f 0 = true)
  /\ (IsDebug f = true <-> Z.testbit f 1 = true).
Proof.
  unfold SetSampled, SetDebug, IsSampled, IsDebug.
  change sampledFlag with (2 ^ 0). change debugFlag with (2 ^ 1).
  repeat split.
  - apply (setFlags_range f (2 ^ 0) 32); simpl; lia.
  - apply (setFlags_range f (2 ^ 0) 32); simpl; lia.
  - rewrite setFlags_pow2_bits by lia. reflexivity.
  - intros i Hi. rewrite setFlags_pow2_bits by lia.
    destruct (Z.eqb_spec i 0); [contradiction|reflexivity].
  - apply (setFlags_range f (2 ^ 1) 32); simpl; lia.
  - apply (setFlags_range f (2 ^ 1) 32); simpl; lia.
  - rewrite setFlags_pow2_bits by lia. reflexivity.
  - intros i Hi. rewrite setFlags_pow2_bits by lia.
    destruct (Z.eqb_spec i 1); [contradiction|reflexivity].
  - rewrite checkFlags_pow2 by lia. auto.
  - rewrite checkFlags_pow2 by lia. auto.
  - rewrite checkFlags_pow2 by lia. auto.
  - rewrite checkFlags_pow2 by lia. auto.
Qed.

(** ** References and the derived parent *)

Local Open Scope list_scope.

Section References.

Lemma TraceID_eqb_eq (a b : TraceID) : TraceID_eqb a b = true <-> a = b.
Proof.
  unfold TraceID_eqb. destruct a as [ha la], b as [hb lb]; simpl.
  rewrite andb_true_iff, !Z.eqb_eq. split.
  - intros [-> ->]. reflexivity.
  - intros E. inversion E. auto.
Qed.

Lemma parent_cond_true (traceID : TraceID) (r : SpanRef) :
  TraceID_eqb (Ref_TraceID r) traceID && (Ref_RefType r =? ChildOf) = true
  <-> parent_link traceID r.
Proof.
  unfold parent_link. rewrite andb_true_iff, TraceID_eqb_eq, Z.eqb_eq.
  reflexivity.
Qed.

Lemma parent_cond_false (traceID : TraceID) (r : SpanRef) :
  TraceID_eqb (Ref_TraceID r) traceID && (Ref_RefType r =? ChildOf) = false
  <-> ~ parent_link traceID r.
Proof.
  rewrite <- parent_cond_true. symmetry. apply not_true_iff_false.
Qed.

Lemma replace_cond_true (traceID : TraceID) (old : SpanID) (r : SpanRef) :
  (Ref_SpanID r =? old) && TraceID_eqb (Ref_TraceID r) traceID = true
  <-> replace_target traceID old r.
Proof.
  unfold replace_target. rewrite andb_true_iff, TraceID_eqb_eq, Z.eqb_eq.
  reflexivity.
Qed.

Lemma replace_cond_false (traceID : TraceID) (old : SpanID) (r : SpanRef) :
  (Ref_SpanID r =? old) && TraceID_eqb (Ref_TraceID r) traceID = false
  <-> ~ replace_target traceID old r.
Proof.
  rewrite <- replace_cond_true. symmetry. apply not_true_iff_false.
Qed.

(** Entries that are no parent link are skipped by the scan. *)
Lemma parent_loop_skip (traceID : TraceID) (pre rest : list SpanRef) :
  Forall (fun x => ~ parent_link traceID x) pre ->
  parent_loop traceID (pre ++ rest) = parent_loop traceID rest.
Proof.
  induction 1 as [|x pre Hx _ IH]; simpl; [reflexivity|].
  apply parent_cond_false in Hx. rewrite Hx. exact IH.
Qed.

Lemma parent_loop_none (traceID : TraceID) (refs : list SpanRef) :
  Forall (fun x => ~ parent_link traceID x) refs ->
  parent_loop traceID refs = 0.
Proof.
  intros H. rewrite <- (app_nil_r refs). rewrite parent_loop_skip by assumption.
  reflexivity.
Qed.

Lemma replace_loop_skip (traceID : TraceID) (old new : SpanID)
    (pre rest : list SpanRef) :
  Forall (fun x => ~ replace_target traceID old x) pre ->
  replace_loop traceID old new (pre ++ rest)
  = option_map (app pre) (replace_loop traceID old new rest).
Proof.
  induction 1 as [|x pre Hx _ IH]; simpl.
  - destruct (replace_loop traceID old new rest); reflexivity.
  - apply replace_cond_false in Hx. rewrite Hx, IH.
    destruct (replace_loop traceID old new rest); reflexivity.
Qed.

Lemma replace_loop_none (traceID : TraceID) (old new : SpanID)
    (refs : list SpanRef) :
  Forall (fun x => ~ replace_target traceID old x) refs ->
  replace_loop traceID old new refs = None.
Proof.
  intros H. rewrite <- (app_nil_r refs). rewrite replace_loop_skip by assumption.
  reflexivity.
Qed.

(** A list with an entry satisfying a decidable condition splits at the
    first such entry. *)
Lemma first_split (P : SpanRef -> Prop) (refs : list SpanRef) :
  (forall x, {P x} + {~ P x}) ->
  Exists P refs ->
  exists pre r post,
    refs = pre ++ r :: post /\ Forall (fun x => ~ P x) pre /\ P r.
Proof.
  intros dec. induction 1 as [x l Hx|x l _ IH].
  - exists [], x, l. auto.
  - destruct (dec x) as [Hx|Hx].
    + exists [], x, l. auto.
    + destruct IH as (pre & r & post & -> & Hpre & Hr).
      exists (x :: pre), r, post. auto.
Qed.

Lemma TraceID_eq_dec (a b : TraceID) : {a = b} + {a <> b}.
Proof. decide equality; apply Z.eq_dec. Qed.

Lemma replace_target_dec (traceID : TraceID) (old : SpanID) (r : SpanRef) :
  {replace_target traceID old r} + {~ replace_target traceID old r}.
Proof.
  unfold replace_target.
  destruct (Z.eq_dec (Ref_SpanID r) old), (TraceID_eq_dec (Ref_TraceID r) traceID);
    tauto.
Qed.

(** Changing the span id of entries that are no parent link leaves the
    derived parent as it is. *)
Lemma parent_link_set_SpanID (traceID : TraceID) (r : SpanRef) (id : SpanID) :
  parent_link traceID (set_SpanID r id) <-> parent_link traceID r.
Proof. unfold parent_link; simpl; tauto. Qed.




Lemma ReplaceParentID_found (s : Span) (new : SpanID)
    (pre : list SpanRef) (r : SpanRef) (post : list SpanRef) :
  Span_References s = pre ++ r :: post ->
  Forall (fun x => ~ replace_target (Span_TraceID s) (ParentSpanID s) x) pre ->
  replace_target (Span_TraceID s) (ParentSpanID s) r ->
  ReplaceParentID s new
  = set_References s
      (pre ++ mkSpanRef (Ref_TraceID r) new (Ref_RefType r) :: post).
Proof.
  intros E Hpre Hr. unfold ReplaceParentID. rewrite E.
  rewrite replace_loop_skip by assumption. simpl.
  apply replace_cond_true in Hr. rewrite Hr. reflexivity.
Qed.

Lemma ReplaceParentID_missing (s : Span) (new : SpanID) :
  Forall (fun x => ~ replace_target (Span_TraceID s) (ParentSpanID s) x)
         (Span_References s) ->
  ReplaceParentID s new
  = set_References s
      (MaybeAddParentSpanID (Span_TraceID s) new (Span_References s)).
Proof.
  intros Hnone. unfold ReplaceParentID.
  rewrite replace_loop_none by assumption. reflexivity.
Qed.

(** The same on the fields of the span afterwards. *)
Lemma ReplaceParentID_found_refs (s : Span) (new : SpanID)
    (pre : list SpanRef) (r : SpanRef) (post : list SpanRef) :
  Span_References s = pre ++ r :: post ->
  Forall (fun x => ~ replace_target (Span_TraceID s) (ParentSpanID s) x) pre ->
  replace_target (Span_TraceID s) (ParentSpanID s) r ->
  Span_References (ReplaceParentID s new)
  = pre ++ mkSpanRef (Ref_TraceID r) new (Ref_RefType r) :: post.
Proof.
  intros E Hpre Hr.
  rewrite (ReplaceParentID_found s new pre r post E Hpre Hr). reflexivity.
Qed.

Lemma ReplaceParentID_missing_refs (s : Span) (new : SpanID) :
  Forall (fun x => ~ replace_target (Span_TraceID s) (ParentSpanID s) x)
         (Span_References s) ->
  Span_References (ReplaceParentID s new)
  = MaybeAddParentSpanID (Span_TraceID s) new (Span_References s).
Proof.
  intros Hnone. rewrite (ReplaceParentID_missing s new Hnone). reflexivity.
Qed.

(** [ReplaceParentID] writes no field but the references. *)
Lemma ReplaceParentID_other_fields (s : Span) (new : SpanID) :
  Span_TraceID (ReplaceParentID s new) = Span_TraceID s
  /\ Span_SpanID (ReplaceParentID s new) = Span_SpanID s
  /\ Span_OperationName (ReplaceParentID s new) = Span_OperationName s
  /\ Span_Flags (ReplaceParentID s new) = Span_Flags s.
Proof.
  unfold ReplaceParentID.
  destruct (replace_loop (Span_TraceID s) (ParentSpanID s) new (Span_References s));
    simpl; auto.
Qed.

End References.

(** C4.  [ParentSpanID] returns the span id of the first reference, in
    sequence order, whose trace id is the span's own and whose type is
    [ChildOf], whatever follows that entry; it returns the zero SpanID
    when no reference satisfies both conditions.  It is a read: its only
    result is the id. *)
Theorem ParentSpanID_first_match (s : Span) :
  (forall pre r post,
      Span_References s = pre ++ r :: post ->
      Forall (fun x => ~ parent_link (Span_TraceID s) x) pre ->
      parent_link (Span_TraceID s) r ->
      ParentSpanID s = Ref_SpanID r)
  /\ (Forall (fun x => ~ parent_link (Span_TraceID s) x) (Span_References s) ->
      ParentSpanID s = 0).
Proof.
  unfold ParentSpanID. split.
  - intros pre r post -> Hpre Hr.
    rewrite parent_loop_skip by assumption. simpl.
    apply parent_cond_true in Hr. rewrite Hr. reflexivity.
  - apply parent_loop_none.
Qed.


(** C3.  With [oldParentID = ParentSpanID(span)]: when some reference has
    [spanID = oldParentID] and the span's trace id, the references of the
    span after [ReplaceParentID] are those before with the span id of the
    first such entry set to [newParentID], at the same position and with
    the same trace id and type, every other reference as it was; when
    there is no such entry, the references afterwards are
    [MaybeAddParentSpanID(span.traceID, newParentID, span.references)].
    The other fields of the span are as before. *)
Theorem ReplaceParentID_spec (s : Span) (newParentID : SpanID) :
  (forall pre r post,
      Span_References s = pre ++ r :: post ->
      Forall (fun x => ~ replace_target (Span_TraceID s) (ParentSpanID s) x) pre ->
      replace_target (Span_TraceID s) (ParentSpanID s) r ->
      Span_References (ReplaceParentID s newParentID)
      = pre ++ mkSpanRef (Ref_TraceID r) newParentID (Ref_RefType r) :: post)
  /\ (Forall (fun x => ~ replace_target (Span_TraceID s) (ParentSpanID s) x)
             (Span_References s) ->
      Span_References (ReplaceParentID s newParentID)
      = MaybeAddParentSpanID (Span_TraceID s) newParentID (Span_References s))
  /\ Span_TraceID (ReplaceParentID s newParentID) = Span_TraceID s
  /\ Span_SpanID (ReplaceParentID s newParentID) = Span_SpanID s
  /\ Span_OperationName (ReplaceParentID s newParentID) = Span_OperationName s
  /\ Span_Flags (ReplaceParentID s newParentID) = Span_Flags s.
Proof.
  split; [|split].
  - intros pre r post. apply ReplaceParentID_found_refs.
  - apply ReplaceParentID_missing_refs.
  - apply ReplaceParentID_other_fields.
Qed.

(** C10.  The scan of [ReplaceParentID] does not look at the type of a
    reference.  For a span without a [ChildOf] reference of its own trace
    but with a reference of its own trace whose span id is 0, the
    references after [ReplaceParentID] are those before with the span id
    of the first such reference, which is not of type [ChildOf], set to
    [newParentID]; no reference is added, and the span still has no
    derived parent afterwards. *)
Theorem ReplaceParentID_ignores_refType (s : Span) (newParentID : SpanID)
    (Hnone : Forall (fun x => ~ parent_link (Span_TraceID s) x)
                    (Span_References s))
    (Hzero : Exists (fun x => Ref_SpanID x = 0 /\ Ref_TraceID x = Span_TraceID s)
                    (Span_References s)) :
  exists pre r post,
    Span_References s = pre ++ r :: post
    /\ Forall (fun x => ~ (Ref_SpanID x = 0 /\ Ref_TraceID x = Span_TraceID s)) pre
    /\ Ref_SpanID r = 0 /\ Ref_TraceID r = Span_TraceID s
    /\ Ref_RefType r <> ChildOf
    /\ Span_References (ReplaceParentID s newParentID)
       = pre ++ mkSpanRef (Ref_TraceID r) newParentID (Ref_RefType r) :: post
    /\ Span_TraceID (ReplaceParentID s newParentID) = Span_TraceID s
    /\ List.length (Span_References (ReplaceParentID s newParentID))
       = List.length (Span_References s)
    /\ Forall (fun x => ~ parent_link (Span_TraceID s) x)
              (Span_References (ReplaceParentID s newParentID))
    /\ ParentSpanID (ReplaceParentID s newParentID) = 0.
Proof.
  assert (Hold : ParentSpanID s = 0) by (apply parent_loop_none; exact Hnone).
  destruct (first_split _ _ (replace_target_dec (Span_TraceID s) 0) Hzero)
    as (pre & r & post & E & Hpre & Hr).
  destruct Hr as [Hr0 Hrt].
  assert (Hty : Ref_RefType r <> ChildOf).
  { intros Hc. rewrite Forall_forall in Hnone.
    apply (Hnone r); [rewrite E; apply in_elt | split; assumption]. }
  assert (Hres : Span_References (ReplaceParentID s newParentID)
                 = pre ++ mkSpanRef (Ref_TraceID r) newParentID (Ref_RefType r)
                       :: post).
  { apply ReplaceParentID_found_refs.
    - exact E.
    - rewrite Hold. exact Hpre.
    - rewrite Hold. split; assumption. }
  destruct (ReplaceParentID_other_fields s newParentID) as (Htid & _).
  assert (Hafter : Forall (fun x => ~ parent_link (Span_TraceID s) x)
                          (Span_References (ReplaceParentID s newParentID))).
  { rewrite Hres. rewrite E in Hnone.
    apply Forall_app in Hnone. destruct Hnone as [H1 H2].
    apply Forall_app. split; [exact H1|].
    inversion H2 as [|? ? Hx Hpost]; subst. constructor; [|exact Hpost].
    unfold parent_link; simpl. tauto. }
  exists pre, r, post. repeat split; try assumption.
  - rewrite Hres, E. rewrite !List.length_app. reflexivity.
  - unfold ParentSpanID. rewrite Htid.
    apply parent_loop_none. exact Hafter.
Qed.

(** ** Hexadecimal numerals *)

Local Open Scope string_scope.
Local Open Scope Z_scope.

Section Strings.

Lemma append_nil_r (s : string) : s ++ "" = s.
Proof. induction s; simpl; congruence. Qed.

Lemma append_assoc (a b c : string) : (a ++ b) ++ c = a ++ (b ++ c).
Proof. induction a; simpl; congruence. Qed.

Lemma length_append (a b : string) :
  String.length (a ++ b) = (String.length a + String.length b)%nat.
Proof. induction a; simpl; congruence. Qed.

Lemma substring_all (s : string) : substring 0 (String.length s) s = s.
Proof. induction s; simpl; congruence. Qed.

(** [ (a ++ b)[0:len(a)] ] is [a]. *)
Lemma slice_prefix (a b : string) : slice (a ++ b) 0 (String.length a) = a.
Proof.
  unfold slice. rewrite Nat.sub_0_r.
  induction a; simpl; [destruct b; reflexivity | congruence].
Qed.

(** [ (a ++ b)[len(a):] ] is [b]. *)
Lemma slice_suffix (a b : string) :
  slice (a ++ b) (String.length a) (String.length (a ++ b)) = b.
Proof.
  unfold slice. rewrite length_append.
  replace (String.length a + String.length b - String.length a)%nat
    with (String.length b) by lia.
  induction a; simpl; [apply substring_all | assumption].
Qed.

End Strings.

Section Digits.

(** The conversion loop of [ParseUint] accepts exactly the hexadecimal
    digits, with their values. *)
Lemma digit_of_hex_digit (c : ascii) :
  match strconv.digit_of (byte_val c) with
  | Some d => if d >=? 16 then None else Some d
  | None => None
  end = hex_digit c.
Proof.
  destruct c as [[] [] [] [] [] [] [] []]; vm_compute; reflexivity.
Qed.

Lemma hex_digit_range (c : ascii) (d : Z) :
  hex_digit c = Some d -> 0 <= d < 16.
Proof.
  unfold hex_digit.
  repeat match goal with
         | |- context [if ?b then _ else _] => destruct b eqn:?
         end; intros E; inversion E; subst; lia.
Qed.

Lemma lower_hex_is_hex (c : ascii) :
  lower_hex_digit c = true -> exists d, hex_digit c = Some d.
Proof.
  unfold lower_hex_digit, hex_digit.
  destruct ((48 <=? byte_val c) && (byte_val c <=? 57)); [eauto|].
  destruct ((97 <=? byte_val c) && (byte_val c <=? 102)); [eauto|].
  discriminate.
Qed.

Lemma all_lower_hex_all_hex (s : string) :
  all_lower_hex s = true -> all_hex s = true.
Proof.
  induction s as [|c s IH]; simpl; [reflexivity|].
  intros H. apply andb_true_iff in H. destruct H as [Hc Hs].
  destruct (lower_hex_is_hex c Hc) as [d ->]. auto.
Qed.

(** The digit table yields the lower-case digit of each value below 16,
    and [0] only for the value 0. *)
Lemma digit_table (d : Z) :
  0 <= d < 16 ->
  hex_digit (fmt.digit d) = Some d
  /\ lower_hex_digit (fmt.digit d) = true
  /\ (d <> 0 -> Ascii.eqb (fmt.digit d) "0"%char = false).
Proof.
  intros H.
  assert (E : d = 0 \/ d = 1 \/ d = 2 \/ d = 3 \/ d = 4 \/ d = 5 \/ d = 6
              \/ d = 7 \/ d = 8 \/ d = 9 \/ d = 10 \/ d = 11 \/ d = 12
              \/ d = 13 \/ d = 14 \/ d = 15) by lia.
  repeat (destruct E as [->|E]); try subst d;
    (split; [reflexivity|split; [reflexivity|intros; try reflexivity; congruence]]).
Qed.

End Digits.

Section Parsing.

Lemma cutoff_eq : strconv.maxUint64 / 16 + 1 = 16 ^ 15.
Proof. reflexivity. Qed.

Lemma hex_value_from_bounds (s : string) (n : Z) (k : nat) :
  0 <= n < 16 ^ Z.of_nat k ->
  0 <= hex_value_from n s < 16 ^ Z.of_nat (k + String.length s).
Proof.
  revert n k. induction s as [|c s IH]; intros n k Hn; simpl.
  - rewrite Nat.add_0_r. assumption.
  - replace (k + S (String.length s))%nat with (S k + String.length s)%nat by lia.
    apply IH. rewrite Nat2Z.inj_succ, Z.pow_succ_r by lia.
    assert (Hd : 0 <= match hex_digit c with Some d => d | None => 0 end < 16).
    { destruct (hex_digit c) as [d|] eqn:E; [eapply hex_digit_range; eauto | lia]. }
    lia.
Qed.

(** On at most 16 bytes in all the conversion loop cannot overflow: it
    yields the value of the numeral, or a syntax error at the first
    byte that is no hexadecimal digit. *)
Lemma parse_loop_short (s0 s : string) (n : Z) (k : nat) :
  0 <= n < 16 ^ Z.of_nat k ->
  (k + String.length s <= 16)%nat ->
  strconv.parse_loop s0 s n
  = if all_hex s then (hex_value_from n s, None)
    else (0, Some (strconv.syntaxError "ParseUint" s0)).
Proof.
  revert n k. induction s as [|c s IH]; intros n k Hn Hlen;
    cbn [strconv.parse_loop all_hex hex_value_from].
  - reflexivity.
  - cbn [String.length] in Hlen. pose proof (digit_of_hex_digit c) as Hc.
    destruct (hex_digit c) as [d|] eqn:Ed.
    + destruct (strconv.digit_of (byte_val c)) as [d'|]; [|discriminate].
      destruct (d' >=? 16); [discriminate|]. inversion Hc; subst d'.
      pose proof (hex_digit_range c d Ed) as Hd.
      assert (Hk : 16 ^ Z.of_nat k <= 16 ^ 15)
        by (apply Z.pow_le_mono_r; lia).
      rewrite cutoff_eq.
      destruct (Z.geb_spec n (16 ^ 15)); [lia|].
      assert (H64 : 2 ^ 64 = 16 * 16 ^ 15) by reflexivity.
      rewrite (Z.mod_small (n * 16)) by lia.
      rewrite (Z.mod_small (n * 16 + d)) by lia.
      destruct (Z.ltb_spec (n * 16 + d) (n * 16)); [lia|].
      unfold strconv.maxUint64.
      destruct (Z.gtb_spec (n * 16 + d) (2 ^ 64 - 1)); [lia|].
      cbn [orb]. apply (IH _ (S k)); [|lia].
      rewrite Nat2Z.inj_succ, Z.pow_succ_r by lia. lia.
    + destruct (strconv.digit_of (byte_val c)) as [d'|]; [|reflexivity].
      destruct (d' >=? 16); [reflexivity|discriminate].
Qed.

(** [ParseUint] on a string of at most 16 bytes. *)
Lemma ParseUint_short (s : string) :
  (String.length s <= 16)%nat ->
  strconv.ParseUint s
  = if valid_hex s then (hex_value s, None)
    else (0, Some (NumError "ParseUint" s ErrSyntax)).
Proof.
  intros Hlen. destruct s as [|c s]; [reflexivity|].
  unfold strconv.ParseUint, valid_hex, hex_value.
  apply (parse_loop_short _ _ 0 0); [simpl; lia | exact Hlen].
Qed.

Lemma hex_value_short (s : string) :
  (String.length s <= 16)%nat -> uint64 (hex_value s).
Proof.
  intros Hlen. unfold uint64, hex_value.
  pose proof (hex_value_from_bounds s 0 0) as H. simpl in H.
  assert (16 ^ Z.of_nat (String.length s) <= 16 ^ 16)
    by (apply Z.pow_le_mono_r; lia).
  change (2 ^ 64) with (16 ^ 16). lia.
Qed.

End Parsing.

Section Numerals.

Lemma hex_value_from_split (s : string) (a : Z) :
  hex_value_from a s = a * 16 ^ Z.of_nat (String.length s) + hex_value s.
Proof.
  unfold hex_value. revert a. induction s as [|c s IH]; intros a.
  - simpl. lia.
  - cbn [hex_value_from String.length].
    rewrite (IH (a * 16 + _)), (IH (0 * 16 + _)).
    rewrite Nat2Z.inj_succ, Z.pow_succ_r by lia. ring.
Qed.

Lemma hex_value_bounds (s : string) :
  0 <= hex_value s < 16 ^ Z.of_nat (String.length s).
Proof. apply (hex_value_from_bounds s 0 0). simpl. lia. Qed.

(** A lower-case digit is determined by its value. *)
Lemma lower_hex_digit_inj (c1 c2 : ascii) (d : Z) :
  lower_hex_digit c1 = true -> lower_hex_digit c2 = true ->
  hex_digit c1 = Some d -> hex_digit c2 = Some d -> c1 = c2.
Proof.
  unfold lower_hex_digit, hex_digit, byte_val. intros L1 L2 E1 E2.
  assert (E : N_of_ascii c1 = N_of_ascii c2).
  { destruct ((48 <=? Z.of_N (N_of_ascii c1)) && (Z.of_N (N_of_ascii c1) <=? 57)) eqn:A1;
    destruct ((97 <=? Z.of_N (N_of_ascii c1)) && (Z.of_N (N_of_ascii c1) <=? 102)) eqn:B1;
    destruct ((48 <=? Z.of_N (N_of_ascii c2)) && (Z.of_N (N_of_ascii c2) <=? 57)) eqn:A2;
    destruct ((97 <=? Z.of_N (N_of_ascii c2)) && (Z.of_N (N_of_ascii c2) <=? 102)) eqn:B2;
    try discriminate; inversion E1; inversion E2; lia. }
  rewrite <- (ascii_N_embedding c1), <- (ascii_N_embedding c2), E. reflexivity.
Qed.

(** Numerals of the same length with the same value are the same. *)
Lemma numeral_inj (s1 s2 : string) :
  String.length s1 = String.length s2 ->
  all_lower_hex s1 = true -> all_lower_hex s2 = true ->
  hex_value s1 = hex_value s2 -> s1 = s2.
Proof.
  revert s2. induction s1 as [|c1 r1 IH]; intros [|c2 r2] Hlen L1 L2 Hv;
    try discriminate; [reflexivity|].
  simpl in Hlen, L1, L2. apply andb_true_iff in L1, L2.
  destruct L1 as [Lc1 Lr1], L2 as [Lc2 Lr2].
  destruct (lower_hex_is_hex c1 Lc1) as [d1 E1].
  destruct (lower_hex_is_hex c2 Lc2) as [d2 E2].
  unfold hex_value in Hv. cbn [hex_value_from] in Hv. rewrite E1, E2 in Hv.
  rewrite !hex_value_from_split in Hv.
  pose proof (hex_value_bounds r1) as B1. pose proof (hex_value_bounds r2) as B2.
  pose proof (hex_digit_range _ _ E1). pose proof (hex_digit_range _ _ E2).
  assert (Hl : String.length r1 = String.length r2) by lia.
  rewrite Hl in *.
  assert (Hd : d1 = d2) by nia. subst d2.
  f_equal.
  - exact (lower_hex_digit_inj c1 c2 d1 Lc1 Lc2 E1 E2).
  - apply IH; auto. lia.
Qed.

(** The numeral of a value without padding has as many digits as the
    value needs. *)
Lemma unpadded_size (s : string) :
  all_lower_hex s = true -> unpadded s = true ->
  (hex_value s = 0 -> s = "0")
  /\ (hex_value s <> 0 ->
      16 ^ Z.of_nat (String.length s - 1) <= hex_value s
      < 16 ^ Z.of_nat (String.length s)).
Proof.
  intros L U. destruct s as [|c r]; [discriminate|].
  simpl in L. apply andb_true_iff in L. destruct L as [Lc Lr].
  destruct (lower_hex_is_hex c Lc) as [d E].
  pose proof (hex_digit_range _ _ E) as Hd.
  assert (Hv : hex_value (String c r)
               = d * 16 ^ Z.of_nat (String.length r) + hex_value r).
  { unfold hex_value at 1. cbn [hex_value_from]. rewrite E.
    rewrite hex_value_from_split. ring. }
  pose proof (hex_value_bounds r) as Br.
  assert (Hpos : 0 < 16 ^ Z.of_nat (String.length r))
    by (apply Z.pow_pos_nonneg; lia).
  assert (Hz : d = 0 -> c = "0"%char).
  { intros ->. apply (lower_hex_digit_inj c "0"%char 0); auto. }
  cbn [String.length]. rewrite Nat.sub_succ, Nat.sub_0_r.
  rewrite Nat2Z.inj_succ, Z.pow_succ_r by lia. rewrite Hv.
  destruct r as [|c' r'].
  - split.
    + intros H0. f_equal. apply Hz.
      change (d * 1 + 0 = 0) in H0. lia.
    + intros Hnz. change (d * 1 + 0 <> 0) in Hnz.
      change (1 <= d * 1 + 0 < 16 * 1). lia.
  - cbn [unpadded] in U. apply negb_true_iff in U.
    assert (d <> 0).
    { intros H0. rewrite (Hz H0) in U. discriminate. }
    split; [intros H0; nia | intros _; nia].
Qed.

(** There is one unpadded lower-case rendering of a value. *)
Lemma hex_rendering_unique (v : Z) (s1 s2 : string) :
  hex_rendering v s1 -> hex_rendering v s2 -> s1 = s2.
Proof.
  intros (L1 & V1 & U1) (L2 & V2 & U2).
  destruct (unpadded_size s1 L1 U1) as [Z1 N1].
  destruct (unpadded_size s2 L2 U2) as [Z2 N2].
  destruct (Z.eq_dec v 0) as [->|Hnz].
  - rewrite (Z1 V1), (Z2 V2). reflexivity.
  - rewrite V1 in N1. rewrite V2 in N2.
    specialize (N1 Hnz). specialize (N2 Hnz).
    apply numeral_inj; auto; [|congruence].
    destruct (Nat.lt_trichotomy (String.length s1) (String.length s2))
      as [Hlt|[Heq|Hgt]]; [|exact Heq|].
    + assert (16 ^ Z.of_nat (String.length s1)
              <= 16 ^ Z.of_nat (String.length s2 - 1))
        by (apply Z.pow_le_mono_r; lia). lia.
    + assert (16 ^ Z.of_nat (String.length s2)
              <= 16 ^ Z.of_nat (String.length s1 - 1))
        by (apply Z.pow_le_mono_r; lia). lia.
Qed.

(** There is one 16-digit lower-case rendering of a value. *)
Lemma hex16_rendering_unique (v : Z) (s1 s2 : string) :
  hex16_rendering v s1 -> hex16_rendering v s2 -> s1 = s2.
Proof.
  intros (L1 & V1 & N1) (L2 & V2 & N2).
  apply numeral_inj; congruence.
Qed.

End Numerals.

Section Formatting.

Lemma hex_value_from_app (a b : string) (acc : Z) :
  hex_value_from acc (a ++ b) = hex_value_from (hex_value_from acc a) b.
Proof. revert acc. induction a; intros acc; simpl; auto. Qed.

Lemma all_lower_hex_app (a b : string) :
  all_lower_hex (a ++ b) = all_lower_hex a && all_lower_hex b.
Proof.
  induction a as [|c a IH]; simpl; [reflexivity|].
  rewrite IH. apply andb_assoc.
Qed.

Lemma nibbles (u : Z) : 0 <= u -> Z.shiftr u 4 * 16 + Z.land u 15 = u.
Proof.
  intros Hu. rewrite Z.shiftr_div_pow2 by lia.
  change 15 with (Z.ones 4). rewrite Z.land_ones by lia.
  change (2 ^ 4) with 16. pose proof (Z.div_mod u 16). lia.
Qed.

(** The digit loop leaves a first digit [u'] and writes the remaining
    digits [ds] in front of the buffer: read from [u'] on, they denote
    [u].  With room for [k] digits it handles every value below
    [16^(k+1)]. *)
Lemma hex_loop_spec (room : nat) (u : Z) (buf : string) (k : nat) :
  0 <= u < 16 ^ Z.of_nat (S k) ->
  (k <= room)%nat ->
  exists u' ds,
    fmt.hex_loop room u buf = (u', ds ++ buf)
    /\ 0 <= u' < 16
    /\ (u <> 0 -> u' <> 0)
    /\ (u < 16 -> ds = "")
    /\ all_lower_hex ds = true
    /\ hex_value_from u' ds = u
    /\ (String.length ds <= k)%nat.
Proof.
  revert u buf k. induction room as [|room IH]; intros u buf k Hu Hk.
  - assert (k = 0%nat) by lia. subst k. change (16 ^ Z.of_nat 1) with 16 in Hu.
    exists u, "". simpl. repeat split; auto; lia.
  - cbn [fmt.hex_loop]. destruct (Z.leb_spec 16 u) as [Hge|Hlt].
    + destruct k as [|k].
      { change (16 ^ Z.of_nat 1) with 16 in Hu. lia. }
      assert (Hsh : 0 <= Z.shiftr u 4 < 16 ^ Z.of_nat (S k)).
      { rewrite Z.shiftr_div_pow2 by lia. change (2 ^ 4) with 16.
        rewrite (Nat2Z.inj_succ (S k)), Z.pow_succ_r in Hu by lia.
        split; [apply Z.div_pos; lia|].
        apply Z.div_lt_upper_bound; lia. }
      destruct (IH (Z.shiftr u 4) (String (fmt.digit (Z.land u 15)) buf) k Hsh)
        as (u' & ds & E & Hu' & Hnz & _ & Hlow & Hval & Hlen); [lia|].
      assert (Hnib : 0 <= Z.land u 15 < 16).
      { change 15 with (Z.ones 4). rewrite Z.land_ones by lia.
        apply Z.mod_pos_bound. reflexivity. }
      destruct (digit_table _ Hnib) as (Hd & Hl & _).
      exists u', (ds ++ String (fmt.digit (Z.land u 15)) "").
      rewrite append_assoc. simpl. repeat split; try lia; auto.
      * intros _. apply Hnz. rewrite Z.shiftr_div_pow2 by lia.
        change (2 ^ 4) with 16.
        assert (1 <= u / 16) by (apply Z.div_le_lower_bound; lia). lia.
      * rewrite all_lower_hex_app. simpl. rewrite Hlow, Hl. reflexivity.
      * rewrite hex_value_from_app, Hval. simpl. rewrite Hd.
        apply nibbles. lia.
      * rewrite length_append. simpl. lia.
    + exists u, "". simpl. repeat split; auto; lia.
Qed.

(** The padding loop puts zeros in front until the numeral has [prec]
    digits, as long as the buffer has room for them. *)
Lemma zero_loop_spec (room prec : nat) (buf : string) :
  (prec <= String.length buf + room)%nat ->
  exists zs,
    fmt.zero_loop room prec buf = zs ++ buf
    /\ all_lower_hex zs = true
    /\ hex_value_from 0 zs = 0
    /\ String.length (zs ++ buf) = Nat.max prec (String.length buf).
Proof.
  revert buf. induction room as [|room IH]; intros buf Hroom.
  - exists "". simpl. repeat split; lia.
  - cbn [fmt.zero_loop]. destruct (Nat.ltb_spec (String.length buf) prec).
    + destruct (IH (String "0"%char buf)) as (zs & E & Hl & Hv & Hlen).
      { simpl. lia. }
      exists (zs ++ "0"). rewrite append_assoc. simpl.
      repeat split.
      * exact E.
      * rewrite all_lower_hex_app, Hl. reflexivity.
      * rewrite hex_value_from_app, Hv. reflexivity.
      * rewrite Hlen. simpl. lia.
    + exists "". simpl. repeat split; lia.
Qed.

(** [%x] of a [uint64]: the numeral of the value without padding, of at
    most 16 digits. *)
Lemma verb_x_spec (u : Z) :
  uint64 u ->
  hex_rendering u (fmt.verb_x u)
  /\ (1 <= String.length (fmt.verb_x u) <= 16)%nat.
Proof.
  intros Hu. unfold fmt.verb_x, fmt.fmtInteger, fmt.pad, hex_rendering.
  cbn [andb negb orb].
  destruct (hex_loop_spec (fmt.intbuf_len - 1) u "" 15)
    as (u' & ds & E & Hu' & Hnz & Hsmall & Hlow & Hval & Hlen).
  { exact Hu. }
  { unfold fmt.intbuf_len. lia. }
  rewrite E, append_nil_r.
  destruct (zero_loop_spec
              (fmt.intbuf_len - String.length (String (fmt.digit u') ds)) 0
              (String (fmt.digit u') ds)) as (zs & Ez & _ & _ & Hzl); [lia|].
  rewrite Nat.max_0_l, length_append in Hzl.
  assert (zs = "") by (destruct zs; [reflexivity|simpl in Hzl; lia]).
  subst zs. rewrite Ez. cbn [append].
  destruct (digit_table u' Hu') as (Hd & Hl & Hz).
  repeat split.
  - simpl. rewrite Hl, Hlow. reflexivity.
  - unfold hex_value. simpl. rewrite Hd. exact Hval.
  - destruct ds as [|c ds]; [reflexivity|]. cbn [unpadded].
    rewrite Hz; [reflexivity|].
    apply Hnz. intros ->. discriminate (Hsmall ltac:(lia)).
  - simpl. lia.
  - simpl. lia.
Qed.

(** [%016x] of a [uint64]: the numeral of the value on exactly 16
    digits. *)
Lemma verb_016x_spec (u : Z) :
  uint64 u -> hex16_rendering u (fmt.verb_016x u).
Proof.
  intros Hu. unfold fmt.verb_016x, fmt.fmtInteger, fmt.pad, hex16_rendering.
  cbn [andb negb orb Nat.eqb].
  destruct (hex_loop_spec (fmt.intbuf_len - 1) u "" 15)
    as (u' & ds & E & Hu' & _ & _ & Hlow & Hval & Hlen).
  { exact Hu. }
  { unfold fmt.intbuf_len. lia. }
  rewrite E, append_nil_r.
  destruct (zero_loop_spec
              (fmt.intbuf_len - String.length (String (fmt.digit u') ds)) 16
              (String (fmt.digit u') ds)) as (zs & Ez & Hzlow & Hzv & Hzl).
  { unfold fmt.intbuf_len. cbn [String.length]. lia. }
  rewrite Ez, Hzl. destruct (digit_table u' Hu') as (Hd & Hl & _).
  replace (16 - Nat.max 16 (String.length (String (fmt.digit u') ds)))%nat
    with 0%nat by (cbn [String.length]; lia).
  cbn [fmt.writePadding append].
  repeat split.
  - rewrite all_lower_hex_app, Hzlow. simpl. rewrite Hl, Hlow. reflexivity.
  - unfold hex_value. rewrite hex_value_from_app, Hzv. simpl.
    rewrite Hd. exact Hval.
  - rewrite Hzl. cbn [String.length]. lia.
Qed.

End Formatting.

Section Slices.

Lemma substring_length_le (s : string) (n m : nat) :
  (String.length (substring n m s) <= m)%nat.
Proof.
  revert n m. induction s as [|c s IH]; intros n m.
  - destruct n, m; simpl; lia.
  - destruct n as [|n].
    + destruct m as [|m]; simpl; [lia|]. specialize (IH 0%nat m). lia.
    + simpl. apply IH.
Qed.

(** [ s[0:n] ] followed by [ s[n:] ] is [s]. *)
Lemma slice_split (s : string) (n : nat) :
  (n <= String.length s)%nat ->
  slice s 0 n ++ slice s n (String.length s) = s.
Proof.
  unfold slice. rewrite Nat.sub_0_r. revert n.
  induction s as [|c s IH]; intros n Hn.
  - simpl in Hn. assert (n = 0%nat) by lia. subst n. reflexivity.
  - destruct n as [|n].
    + cbn [substring append]. rewrite Nat.sub_0_r.
      change (substring 0 (String.length (String c s)) (String c s) = String c s).
      apply substring_all.
    + simpl in Hn. cbn [substring append String.length].
      rewrite Nat.sub_succ. f_equal. apply IH. lia.
Qed.

(** A string whose last byte is [q] is its part before the last byte
    followed by [q]. *)
Lemma slice_last (s : string) (q : ascii) :
  index s (String.length s - 1) = Some q ->
  s = slice s 0 (String.length s - 1) ++ String q "".
Proof.
  unfold slice, index. rewrite Nat.sub_0_r.
  induction s as [|c s IH]; [discriminate|].
  cbn [String.length]. rewrite Nat.sub_succ, Nat.sub_0_r.
  destruct s as [|c' s].
  - simpl. intros E. inversion E. reflexivity.
  - cbn [String.length String.get substring append] in *.
    rewrite Nat.sub_succ, Nat.sub_0_r in IH.
    intros E. f_equal. apply IH. exact E.
Qed.

(** Between the first byte and the last byte. *)
Lemma slice_inner (c : ascii) (s : string) :
  slice (String c s) 1 (String.length (String c s) - 1)
  = slice s 0 (String.length s - 1).
Proof.
  unfold slice. cbn [String.length substring].
  rewrite !Nat.sub_succ, !Nat.sub_0_r. reflexivity.
Qed.

Lemma byte_differs_false (b : string) (i : nat) (c : ascii) :
  byte_differs b i c = false <-> index b i = Some c.
Proof.
  unfold byte_differs. destruct (index b i) as [x|].
  - rewrite negb_false_iff, Ascii.eqb_eq. split; congruence.
  - split; discriminate.
Qed.

Lemma ParseUint_numeral (s : string) :
  all_lower_hex s = true ->
  (1 <= String.length s <= 16)%nat ->
  strconv.ParseUint s = (hex_value s, None).
Proof.
  intros Hlow Hlen. rewrite ParseUint_short by lia.
  unfold valid_hex. rewrite (all_lower_hex_all_hex s Hlow).
  destruct s; [simpl in Hlen; lia | reflexivity].
Qed.

End Slices.

(** ** The TraceID and SpanID codecs *)

(** C5.  For every TraceID [{high, low}]: when [high] is 0, [String]
    returns the lower-case hexadecimal rendering of [low] without leading
    zero padding; otherwise it returns the unpadded lower-case hexadecimal
    rendering of [high] followed by [low] in lower-case hexadecimal padded
    with zeros to exactly 16 digits. *)
Theorem TraceID_String_rendering (high low : Z)
    (Hhigh : uint64 high) (Hlow : uint64 low) :
  (high = 0 -> hex_rendering low (TraceID_String (mkTraceID high low)))
  /\ (high <> 0 ->
      exists h l,
        TraceID_String (mkTraceID high low) = h ++ l
        /\ hex_rendering high h
        /\ hex16_rendering low l).
Proof.
  unfold TraceID_String. simpl. split.
  - intros ->. simpl. apply verb_x_spec. exact Hlow.
  - intros Hnz. destruct (Z.eqb_spec high 0); [contradiction|].
    exists (fmt.verb_x high), (fmt.verb_016x low). split; [reflexivity|].
    split; [apply verb_x_spec; exact Hhigh | apply verb_016x_spec; exact Hlow].
Qed.

(** C1.  For every pair of unsigned 64-bit integers [(high, low)], parsing
    the text of the TraceID [{high, low}] succeeds and returns
    [{high, low}]. *)
Theorem TraceID_round_trip (high low : Z)
    (Hhigh : uint64 high) (Hlow : uint64 low) :
  TraceIDFromString (TraceID_String (mkTraceID high low))
  = (mkTraceID high low, None).
Proof.
  destruct (verb_x_spec low Hlow) as ((Lx1 & Lx2 & _) & Lxlen).
  destruct (verb_x_spec high Hhigh) as ((Hx1 & Hx2 & _) & Hxlen).
  destruct (verb_016x_spec low Hlow) as (Lp1 & Lp2 & Lplen).
  unfold TraceID_String, TraceIDFromString. simpl.
  destruct (Z.eqb_spec high 0) as [->|Hnz].
  - destruct (Nat.ltb_spec 32 (String.length (fmt.verb_x low))); [lia|].
    destruct (Nat.ltb_spec 16 (String.length (fmt.verb_x low))); [lia|].
    rewrite ParseUint_numeral by assumption. rewrite Lx2. reflexivity.
  - rewrite length_append, Lplen.
    destruct (Nat.ltb_spec 32 (String.length (fmt.verb_x high) + 16)); [lia|].
    destruct (Nat.ltb_spec 16 (String.length (fmt.verb_x high) + 16)); [|lia].
    rewrite Nat.add_sub. rewrite slice_prefix.
    rewrite ParseUint_numeral by assumption.
    replace (String.length (fmt.verb_x high) + 16)%nat
      with (String.length (fmt.verb_x high ++ fmt.verb_016x low))
      by (rewrite length_append, Lplen; reflexivity).
    rewrite slice_suffix.
    rewrite ParseUint_numeral by (try assumption; lia).
    rewrite Hx2, Lp2. reflexivity.
Qed.

(** C6.  Lengths are counted in bytes, as [len] does.
    [TraceIDFromString] fails with the length error on more than 32
    bytes; on 17 to 32 bytes it splits the string 16 bytes before its end
    and reads the first part as [high] and the last 16 bytes as [low],
    failing with the syntax error of the conversion, which names the
    offending part, when the first part, and else the second, is not a
    hexadecimal numeral; on at most 16 bytes it reads the whole string as
    [low], with [high = 0], failing likewise.  [SpanIDFromString] fails
    with the length error on more than 16 bytes and otherwise reads the
    string as a hexadecimal numeral, failing with the syntax error when it
    is none.  Values read are unsigned 64-bit integers. *)
Theorem FromString_cases (s : string) :
  ((32 < String.length s)%nat ->
   TraceIDFromString s
   = (TraceID_zero,
      Some (Errorf ("TraceID cannot be longer than 32 hex characters: " ++ s))))
  /\ ((16 < String.length s <= 32)%nat ->
      let hi := slice s 0 (String.length s - 16) in
      let lo := slice s (String.length s - 16) (String.length s) in
      s = hi ++ lo
      /\ TraceIDFromString s
         = (if valid_hex hi then
              if valid_hex lo
              then (mkTraceID (hex_value hi) (hex_value lo), None)
              else (TraceID_zero, Some (NumError "ParseUint" lo ErrSyntax))
            else (TraceID_zero, Some (NumError "ParseUint" hi ErrSyntax)))
      /\ uint64 (hex_value hi) /\ uint64 (hex_value lo))
  /\ ((String.length s <= 16)%nat ->
      TraceIDFromString s
      = (if valid_hex s then (mkTraceID 0 (hex_value s), None)
         else (TraceID_zero, Some (NumError "ParseUint" s ErrSyntax)))
      /\ SpanIDFromString s
         = (if valid_hex s then (hex_value s, None)
            else (0, Some (NumError "ParseUint" s ErrSyntax)))
      /\ uint64 (hex_value s))
  /\ ((16 < String.length s)%nat ->
      SpanIDFromString s
      = (0, Some (Errorf ("SpanID cannot be longer than 16 hex characters: " ++ s)))).
Proof.
  assert (Hsub : forall n m, (m <= 16)%nat ->
                 (String.length (substring n m s) <= 16)%nat).
  { intros n m Hm. etransitivity; [apply substring_length_le|exact Hm]. }
  split; [|split; [|split]]; [| intros H hi lo | |];
    unfold TraceIDFromString, SpanIDFromString.
  - intros H. destruct (Nat.ltb_spec 32 (String.length s)); [reflexivity|lia].
  -
    assert (Hhi : (String.length hi <= 16)%nat) by (apply Hsub; lia).
    assert (Hlo : (String.length lo <= 16)%nat) by (apply Hsub; lia).
    split; [|split; [|split]].
    + symmetry. apply slice_split. lia.
    + destruct (Nat.ltb_spec 32 (String.length s)); [lia|].
      destruct (Nat.ltb_spec 16 (String.length s)); [|lia].
      fold hi. fold lo.
      rewrite (ParseUint_short hi Hhi), (ParseUint_short lo Hlo).
      destruct (valid_hex hi); [|reflexivity].
      destruct (valid_hex lo); reflexivity.
    + apply hex_value_short. exact Hhi.
    + apply hex_value_short. exact Hlo.
  - intros H.
    destruct (Nat.ltb_spec 32 (String.length s)); [lia|].
    destruct (Nat.ltb_spec 16 (String.length s)); [lia|].
    rewrite ParseUint_short by assumption.
    split; [|split].
    + destruct (valid_hex s); reflexivity.
    + destruct (valid_hex s); reflexivity.
    + apply hex_value_short. assumption.
  - intros H. destruct (Nat.ltb_spec 16 (String.length s)); [reflexivity|lia].
Qed.

(** C7.  The generic text entry points of TraceID, [MarshalText] and
    [UnmarshalText], fail for every input with an error that points to
    the jsonpb codec, and [UnmarshalText] leaves the receiver as it was.
    [MarshalText] of a SpanID succeeds and emits the unpadded lower-case
    hexadecimal rendering of the value, which is what the wire form
    [MarshalJSONPB] puts between double quotes. *)
Theorem text_marshalling :
  (forall t : TraceID,
      TraceID_MarshalText t
      = ("", Some (Errorf "unsupported method TraceID.MarshalText; please use github.com/gogo/protobuf/jsonpb for marshalling")))
  /\ (forall (t : TraceID) (text : string),
         TraceID_UnmarshalText t text
         = (t, Some (Errorf "unsupported method TraceID.UnmarshalText; please use github.com/gogo/protobuf/jsonpb for marshalling")))
  /\ (forall s : SpanID,
         uint64 s ->
         exists out,
           SpanID_MarshalText s = (out, None)
           /\ hex_rendering s out
           /\ SpanID_MarshalJSONPB s
              = (String dquote (out ++ String dquote ""), None)).
Proof.
  split; [|split].
  - intros t. reflexivity.
  - intros t text. reflexivity.
  - intros s Hs. exists (SpanID_String s). split; [reflexivity|].
    split; [|reflexivity].
    unfold SpanID_String. apply verb_x_spec. exact Hs.
Qed.

(** C8.  For every byte string [b], both wire decoders fail with a format
    error built from [b] alone, leaving the receiver as it was, when [b]
    has fewer than 3 bytes and when its first or its last byte is not a
    double quote; only when both checks pass is the part of [b] between
    the two quotes given to [TraceIDFromString], respectively
    [SpanIDFromString], whose result then decides. *)
Theorem UnmarshalJSONPB_guards (b : string) :
  ((String.length b < 3)%nat ->
   (forall t : TraceID,
       TraceID_UnmarshalJSONPB t b
       = (t, Some (Errorf ("TraceID JSON string cannot be shorter than 3 chars: " ++ b))))
   /\ (forall s : SpanID,
          SpanID_UnmarshalJSONPB s b
          = (s, Some (Errorf ("SpanID JSON string cannot be shorter than 3 chars: " ++ b)))))
  /\ ((3 <= String.length b)%nat ->
      index b 0 <> Some dquote \/ index b (String.length b - 1) <> Some dquote ->
      (forall t : TraceID,
          TraceID_UnmarshalJSONPB t b
          = (t, Some (Errorf ("TraceID JSON string must be enclosed in quotes: " ++ b))))
      /\ (forall s : SpanID,
             SpanID_UnmarshalJSONPB s b
             = (s, Some (Errorf ("SpanID JSON string must be enclosed in quotes: " ++ b)))))
  /\ ((3 <= String.length b)%nat ->
      index b 0 = Some dquote ->
      index b (String.length b - 1) = Some dquote ->
      b = String dquote (slice b 1 (String.length b - 1) ++ String dquote "")
      /\ (forall t : TraceID,
             TraceID_UnmarshalJSONPB t b
             = match TraceIDFromString (slice b 1 (String.length b - 1)) with
               | (_, Some err) => (t, Some err)
               | (q, None) => (q, None)
               end)
      /\ (forall s : SpanID,
             SpanID_UnmarshalJSONPB s b
             = match SpanIDFromString (slice b 1 (String.length b - 1)) with
               | (_, Some err) => (s, Some err)
               | (q, None) => (q, None)
               end)).
Proof.
  unfold TraceID_UnmarshalJSONPB, SpanID_UnmarshalJSONPB.
  split; [|split].
  - intros Hlen. destruct (Nat.ltb_spec (String.length b) 3); [|lia].
    split; reflexivity.
  - intros Hlen Hq. destruct (Nat.ltb_spec (String.length b) 3); [lia|].
    assert (E : byte_differs b 0 dquote
                || byte_differs b (String.length b - 1) dquote = true).
    { apply orb_true_iff.
      destruct Hq as [Hq|Hq]; [left|right]; apply not_false_iff_true;
        rewrite byte_differs_false; exact Hq. }
    rewrite E. split; reflexivity.
  - intros Hlen Hfirst Hlast.
    destruct (Nat.ltb_spec (String.length b) 3); [lia|].
    rewrite (proj2 (byte_differs_false _ _ _) Hfirst).
    rewrite (proj2 (byte_differs_false _ _ _) Hlast).
    split; [|split; reflexivity].
    destruct b as [|c b']; [discriminate|].
    simpl in Hfirst. inversion Hfirst; subst c.
    rewrite slice_inner. f_equal. apply slice_last.
    cbn [String.length] in Hlast, Hlen.
    unfold index in *. rewrite Nat.sub_succ, Nat.sub_0_r in Hlast.
    destruct b' as [|c' b'']; [simpl in Hlen; lia|].
    cbn [String.length]. rewrite Nat.sub_succ, Nat.sub_0_r.
    cbn [String.length String.get] in Hlast. exact Hlast.
Qed.

(** ** The statements at concrete inputs *)

Lemma TraceID_round_trip_witness :
  uint64 42 /\ uint64 67
  /\ TraceIDFromString (TraceID_String (mkTraceID 42 67)) = (mkTraceID 42 67, None).
Proof.
  split; [unfold uint64; lia|]. split; [unfold uint64; lia|].
  apply (TraceID_round_trip 42 67); unfold uint64; lia.
Defined.

Lemma TraceID_String_rendering_witness :
  uint64 0 /\ uint64 66
  /\ hex_rendering 66 (TraceID_String (mkTraceID 0 66)).
Proof.
  split; [unfold uint64; lia|]. split; [unfold uint64; lia|].
  apply (TraceID_String_rendering 0 66); [unfold uint64; lia .. | reflexivity].
Defined.

Lemma Flags_set_and_check_witness :
  0 <= 4 < 2 ^ 32
  /\ Z.testbit (SetSampled 4) 0 = true
  /\ Z.testbit (SetSampled 4) 2 = Z.testbit 4 2.
Proof.
  split; [lia|].
  destruct (Flags_set_and_check 4 ltac:(lia)) as ((_ & Hset & Hframe) & _).
  split; [exact Hset | apply Hframe; lia].
Defined.

Lemma ParentSpanID_first_match_witness : ParentSpanID sample_span = 123.
Proof.
  apply (proj1 (ParentSpanID_first_match sample_span)
           [mkSpanRef other_trace 789 ChildOf]
           (mkSpanRef sample_trace 123 ChildOf)
           [mkSpanRef sample_trace 456 ChildOf]).
  - reflexivity.
  - repeat constructor. intros [H _]. discriminate H.
  - split; reflexivity.
Defined.



Lemma ReplaceParentID_spec_witness :
  Span_References (ReplaceParentID sample_span 7)
  = [ mkSpanRef other_trace 789 ChildOf;
      mkSpanRef sample_trace 7 ChildOf;
      mkSpanRef sample_trace 456 ChildOf ].
Proof.
  apply (proj1 (ReplaceParentID_spec sample_span 7)
           [mkSpanRef other_trace 789 ChildOf]
           (mkSpanRef sample_trace 123 ChildOf)
           [mkSpanRef sample_trace 456 ChildOf]).
  - reflexivity.
  - repeat constructor. intros [H _]. discriminate H.
  - split; reflexivity.
Defined.

Lemma ReplaceParentID_ignores_refType_witness :
  Span_References (ReplaceParentID orphan_span 7)
  = [mkSpanRef sample_trace 7 FollowsFrom]
  /\ ParentSpanID (ReplaceParentID orphan_span 7) = 0.
Proof.
  destruct (ReplaceParentID_ignores_refType orphan_span 7)
    as (pre & r & post & Hsplit & _ & _ & _ & _ & Hres & _ & _ & _ & Hp).
  - repeat constructor. intros [_ H]. discriminate H.
  - constructor. split; reflexivity.
  - split; [|exact Hp].
    rewrite Hres. simpl in Hsplit.
    destruct pre as [|x pre].
    + simpl in Hsplit. inversion Hsplit. reflexivity.
    + simpl in Hsplit. inversion Hsplit. destruct pre; discriminate.
Defined.

Lemma FromString_cases_witness :
  TraceIDFromString "2a0000000000000043" = (mkTraceID 42 67, None)
  /\ SpanIDFromString "4g" = (0, Some (NumError "ParseUint" "4g" ErrSyntax)).
Proof.
  destruct (FromString_cases "2a0000000000000043") as (_ & Hmid & _).
  destruct (Hmid ltac:(simpl; lia)) as (_ & E & _).
  destruct (FromString_cases "4g") as (_ & _ & Hshort & _).
  destruct (Hshort ltac:(simpl; lia)) as (_ & E' & _).
  split; [exact E | exact E'].
Defined.

Lemma text_marshalling_witness :
  uint64 66
  /\ exists out,
       SpanID_MarshalText 66 = (out, None)
       /\ hex_rendering 66 out
       /\ SpanID_MarshalJSONPB 66 = (String dquote (out ++ String dquote ""), None).
Proof.
  assert (H : uint64 66) by (unfold uint64; lia).
  split; [exact H | exact (proj2 (proj2 text_marshalling) 66 H)].
Defined.

Lemma UnmarshalJSONPB_guards_witness :
  TraceID_UnmarshalJSONPB TraceID_zero sample_wire = (mkTraceID 0 66, None)
  /\ SpanID_UnmarshalJSONPB 5 "42"
     = (5, Some (Errorf "SpanID JSON string cannot be shorter than 3 chars: 42")).
Proof.
  destruct (UnmarshalJSONPB_guards sample_wire) as (_ & _ & Hok).
  destruct (Hok ltac:(simpl; lia) eq_refl eq_refl) as (_ & E & _).
  destruct (UnmarshalJSONPB_guards "42") as (Hshort & _).
  destruct (Hshort ltac:(simpl; lia)) as (_ & E').
  split; [exact (E TraceID_zero) | exact (E' 5)].
Defined.

(** * Further properties of the codecs *)

Section CodecFacts.

Lemma all_hex_app (a b : string) :
  all_hex (a ++ b) = all_hex a && all_hex b.
Proof.
  induction a as [|c a IH]; simpl; [reflexivity|].
  destruct (hex_digit c); [exact IH | reflexivity].
Qed.

Lemma valid_hex_iff (s : string) :
  valid_hex s = true <-> (1 <= String.length s)%nat /\ all_hex s = true.
Proof.
  destruct s as [|c s]; simpl.
  - split; [discriminate | intros [H _]; lia].
  - split; [intros H; split; [lia | exact H] | intros [_ H]; exact H].
Qed.

Lemma substring_length (s : string) (n m : nat) :
  (n + m <= String.length s)%nat -> String.length (substring n m s) = m.
Proof.
  revert n m. induction s as [|c s IH]; intros n m H.
  - simpl in H. assert (n = 0%nat) by lia. assert (m = 0%nat) by lia.
    subst. reflexivity.
  - destruct n as [|n].
    + destruct m as [|m]; [reflexivity|]. simpl. f_equal. apply IH.
      simpl in H. lia.
    + simpl. apply IH. simpl in H. lia.
Qed.

(** A pair of 64-bit halves is determined by the 128-bit number. *)
Lemma halves_unique (h1 l1 h2 l2 : Z) :
  uint64 l1 -> uint64 l2 ->
  h1 * 2 ^ 64 + l1 = h2 * 2 ^ 64 + l2 -> h1 = h2 /\ l1 = l2.
Proof. unfold uint64. intros H1 H2 E. nia. Qed.

(** What [TraceIDFromString] accepts, and the number it reads. *)
Lemma TraceIDFromString_accepts (s : string) :
  (1 <= String.length s <= 32)%nat ->
  all_hex s = true ->
  exists t,
    TraceIDFromString s = (t, None)
    /\ uint64 (High t) /\ uint64 (Low t)
    /\ High t * 2 ^ 64 + Low t = hex_value s.
Proof.
  intros Hlen Hhex. unfold TraceIDFromString.
  destruct (Nat.ltb_spec 32 (String.length s)); [lia|].
  destruct (Nat.ltb_spec 16 (String.length s)) as [Hlong|Hshort].
  - set (hi := slice s 0 (String.length s - 16)).
    set (lo := slice s (String.length s - 16) (String.length s)).
    assert (Es : s = hi ++ lo) by (symmetry; apply slice_split; lia).
    assert (Lhi : String.length hi = (String.length s - 16)%nat).
    { unfold hi, slice. rewrite substring_length; lia. }
    assert (Llo : String.length lo = 16%nat).
    { unfold lo, slice. rewrite substring_length; lia. }
    rewrite Es, all_hex_app in Hhex. apply andb_true_iff in Hhex.
    destruct Hhex as [Hh Hl].
    rewrite (ParseUint_short hi) by lia.
    rewrite (proj2 (valid_hex_iff hi)) by (split; [lia | exact Hh]).
    rewrite (ParseUint_short lo) by lia.
    rewrite (proj2 (valid_hex_iff lo)) by (split; [lia | exact Hl]).
    exists (mkTraceID (hex_value hi) (hex_value lo)). simpl.
    split; [reflexivity|].
    split; [apply hex_value_short; lia|].
    split; [apply hex_value_short; lia|].
    rewrite Es at 1. unfold hex_value at 3.
    rewrite hex_value_from_app, hex_value_from_split, Llo. reflexivity.
  - rewrite ParseUint_short by lia.
    rewrite (proj2 (valid_hex_iff s)) by (split; [lia | exact Hhex]).
    exists (mkTraceID 0 (hex_value s)). simpl.
    split; [reflexivity|].
    split; [unfold uint64; lia|].
    split; [apply hex_value_short; lia | lia].
Qed.

(** What [TraceIDFromString] refuses, and with which error. *)
Lemma TraceIDFromString_refuses (s : string) :
  ~ ((1 <= String.length s <= 32)%nat /\ all_hex s = true) ->
  exists e,
    TraceIDFromString s = (TraceID_zero, Some e)
    /\ (e = Errorf ("TraceID cannot be longer than 32 hex characters: " ++ s)
        \/ exists part, e = NumError "ParseUint" part ErrSyntax).
Proof.
  intros Hno. unfold TraceIDFromString.
  destruct (Nat.ltb_spec 32 (String.length s)); [eauto|].
  destruct (Nat.ltb_spec 16 (String.length s)) as [Hlong|Hshort].
  - set (hi := slice s 0 (String.length s - 16)).
    set (lo := slice s (String.length s - 16) (String.length s)).
    assert (Es : s = hi ++ lo) by (symmetry; apply slice_split; lia).
    assert (Lhi : String.length hi = (String.length s - 16)%nat).
    { unfold hi, slice. rewrite substring_length; lia. }
    assert (Llo : String.length lo = 16%nat).
    { unfold lo, slice. rewrite substring_length; lia. }
    rewrite (ParseUint_short hi) by lia.
    destruct (valid_hex hi) eqn:Vh; [|eauto].
    rewrite (ParseUint_short lo) by lia.
    destruct (valid_hex lo) eqn:Vl; [|eauto].
    exfalso. apply Hno. split; [lia|].
    rewrite Es, all_hex_app.
    apply valid_hex_iff in Vh, Vl. destruct Vh as [_ ->], Vl as [_ ->].
    reflexivity.
  - rewrite ParseUint_short by lia.
    destruct (valid_hex s) eqn:V; [|eauto].
    exfalso. apply Hno. apply valid_hex_iff in V. destruct V. split; [lia|assumption].
Qed.

Lemma hex_digit_zero : hex_digit "0"%char = Some 0.
Proof. reflexivity. Qed.

(** A numeral without padding stays so when digits follow it, unless it
    is the single digit [0]. *)
Lemma unpadded_app (h l : string) :
  all_lower_hex h = true -> unpadded h = true -> hex_value h <> 0 ->
  unpadded (h ++ l) = true.
Proof.
  intros L U Hnz. destruct h as [|c r]; [discriminate|].
  destruct r as [|c' r'].
  - destruct l as [|cl l']; [reflexivity|]. cbn [append unpadded].
    destruct (Ascii.eqb_spec c "0"%char) as [->|]; [|reflexivity].
    exfalso. apply Hnz. reflexivity.
  - exact U.
Qed.

(** The text of a TraceID is the unpadded lower-case numeral of the
    128-bit number [High * 2^64 + Low]. *)
Lemma TraceID_String_numeral (t : TraceID) :
  uint64 (High t) -> uint64 (Low t) ->
  hex_rendering (High t * 2 ^ 64 + Low t) (TraceID_String t)
  /\ (High t = 0 -> (1 <= String.length (TraceID_String t) <= 16)%nat)
  /\ (High t <> 0 -> (17 <= String.length (TraceID_String t) <= 32)%nat).
Proof.
  intros Hh Hl. unfold TraceID_String.
  destruct (verb_x_spec (Low t) Hl) as ((Lx1 & Lx2 & Lx3) & Lxlen).
  destruct (verb_x_spec (High t) Hh) as ((Hx1 & Hx2 & Hx3) & Hxlen).
  destruct (verb_016x_spec (Low t) Hl) as (Lp1 & Lp2 & Lplen).
  destruct (Z.eqb_spec (High t) 0) as [E|Hnz].
  - rewrite E. split; [|split; [intros _; exact Lxlen | intros H; contradiction H; reflexivity]].
    repeat split; auto.
  - split; [|split; [intros H; contradiction | intros _; rewrite length_append; lia]].
    split; [|split].
    + rewrite all_lower_hex_app, Hx1, Lp1. reflexivity.
    + unfold hex_value. rewrite hex_value_from_app, hex_value_from_split.
      fold (hex_value (fmt.verb_x (High t))). rewrite Hx2, Lp2, Lplen. reflexivity.
    + apply unpadded_app; auto. rewrite Hx2. exact Hnz.
Qed.

(** Parsing the text of a TraceID gives the TraceID back. *)
Lemma TraceID_String_parses (t : TraceID) :
  uint64 (High t) -> uint64 (Low t) ->
  TraceIDFromString (TraceID_String t) = (t, None).
Proof.
  intros Hh Hl.
  destruct (TraceID_String_numeral t Hh Hl) as ((L & V & _) & Len0 & Len1).
  destruct (TraceIDFromString_accepts (TraceID_String t)) as (t' & E & Hh' & Hl' & V').
  - destruct (Z.eq_dec (High t) 0) as [H0|H0];
      [specialize (Len0 H0) | specialize (Len1 H0)]; lia.
  - apply all_lower_hex_all_hex. exact L.
  - rewrite E. rewrite V in V'.
    destruct (halves_unique _ _ _ _ Hl' Hl V') as [E1 E2].
    destruct t as [h l], t' as [h' l']. simpl in *. subst. reflexivity.
Qed.

End CodecFacts.

Section WireFacts.

Lemma get_last (body : string) (q : ascii) :
  String.get (String.length body) (body ++ String q "") = Some q.
Proof. induction body as [|c body IH]; simpl; [reflexivity | exact IH]. Qed.

Lemma quoted_length (body : string) :
  String.length (quoted body) = S (S (String.length body)).
Proof.
  unfold quoted. cbn [String.length]. rewrite length_append. simpl. lia.
Qed.

Lemma quoted_last (body : string) :
  index (quoted body) (String.length (quoted body) - 1) = Some dquote.
Proof.
  rewrite quoted_length. unfold index, quoted.
  rewrite Nat.sub_succ, Nat.sub_0_r. cbn [String.get]. apply get_last.
Qed.

Lemma quoted_inner (body : string) :
  slice (quoted body) 1 (String.length (quoted body) - 1) = body.
Proof.
  unfold quoted. rewrite slice_inner, length_append.
  replace (String.length body + String.length (String dquote "") - 1)%nat
    with (String.length body) by (simpl; lia).
  apply slice_prefix.
Qed.

(** A byte string of three bytes or more between two double quotes is
    the wire form of what lies between them. *)
Lemma quoted_shape (b : string) :
  (3 <= String.length b)%nat ->
  index b 0 = Some dquote ->
  index b (String.length b - 1) = Some dquote ->
  b = quoted (slice b 1 (String.length b - 1))
  /\ (1 <= String.length (slice b 1 (String.length b - 1)))%nat.
Proof.
  intros Hlen Hfirst Hlast.
  destruct b as [|c b']; [discriminate|].
  simpl in Hfirst. inversion Hfirst; subst c.
  assert (E : b' = slice b' 0 (String.length b' - 1) ++ String dquote "").
  { apply slice_last. cbn [String.length] in Hlast, Hlen.
    unfold index in *. rewrite Nat.sub_succ, Nat.sub_0_r in Hlast.
    destruct b' as [|c' b'']; [simpl in Hlen; lia|].
    cbn [String.length]. rewrite Nat.sub_succ, Nat.sub_0_r.
    cbn [String.length String.get] in Hlast. exact Hlast. }
  rewrite slice_inner. split.
  - unfold quoted. f_equal. exact E.
  - unfold slice. rewrite substring_length; cbn [String.length] in *; lia.
Qed.

(** On a wire form the TraceID decoder is the parser of the body. *)
Lemma TraceID_Unmarshal_quoted (t0 : TraceID) (body : string) :
  (1 <= String.length body)%nat ->
  TraceID_UnmarshalJSONPB t0 (quoted body)
  = match TraceIDFromString body with
    | (_, Some err) => (t0, Some err)
    | (q, None) => (q, None)
    end.
Proof.
  intros Hlen. unfold TraceID_UnmarshalJSONPB.
  rewrite quoted_inner.
  destruct (Nat.ltb_spec (String.length (quoted body)) 3) as [H|_];
    [rewrite quoted_length in H; lia|].
  rewrite (proj2 (byte_differs_false _ _ _) (quoted_last body)).
  reflexivity.
Qed.

(** On a wire form the SpanID decoder is the parser of the body. *)
Lemma SpanID_Unmarshal_quoted (s0 : SpanID) (body : string) :
  (1 <= String.length body)%nat ->
  SpanID_UnmarshalJSONPB s0 (quoted body)
  = match SpanIDFromString body with
    | (_, Some err) => (s0, Some err)
    | (q, None) => (q, None)
    end.
Proof.
  intros Hlen. unfold SpanID_UnmarshalJSONPB.
  rewrite quoted_inner.
  destruct (Nat.ltb_spec (String.length (quoted body)) 3) as [H|_];
    [rewrite quoted_length in H; lia|].
  rewrite (proj2 (byte_differs_false _ _ _) (quoted_last body)).
  reflexivity.
Qed.

(** A byte string the TraceID decoder accepts is a wire form. *)
Lemma TraceID_Unmarshal_accepted (t0 : TraceID) (b : string) :
  snd (TraceID_UnmarshalJSONPB t0 b) = None ->
  b = quoted (slice b 1 (String.length b - 1))
  /\ (1 <= String.length (slice b 1 (String.length b - 1)))%nat.
Proof.
  unfold TraceID_UnmarshalJSONPB.
  destruct (Nat.ltb_spec (String.length b) 3); [discriminate|].
  destruct (byte_differs b 0 dquote) eqn:D0; [discriminate|].
  destruct (byte_differs b (String.length b - 1) dquote) eqn:D1; [discriminate|].
  intros _. apply quoted_shape; [assumption | |]; apply byte_differs_false;
    assumption.
Qed.

Lemma SpanIDFromString_String (s : SpanID) :
  uint64 s -> SpanIDFromString (SpanID_String s) = (s, None).
Proof.
  intros Hs. unfold SpanIDFromString, SpanID_String.
  destruct (verb_x_spec s Hs) as ((L & V & _) & Hlen).
  destruct (Nat.ltb_spec 16 (String.length (fmt.verb_x s))); [lia|].
  rewrite ParseUint_numeral by assumption. rewrite V. reflexivity.
Qed.

End WireFacts.

Section Acceptance.

Lemma accepted_dec (s : string) :
  {(1 <= String.length s <= 32)%nat /\ all_hex s = true}
  + {~ ((1 <= String.length s <= 32)%nat /\ all_hex s = true)}.
Proof.
  destruct (le_dec 1 (String.length s)); [|right; lia].
  destruct (le_dec (String.length s) 32); [|right; lia].
  destruct (all_hex s); [left; auto | right; intros [_ H]; discriminate].
Qed.

(** A successful parse: what the input was and what was read. *)
Lemma TraceIDFromString_success (s : string) (t : TraceID) :
  TraceIDFromString s = (t, None) ->
  ((1 <= String.length s <= 32)%nat /\ all_hex s = true)
  /\ uint64 (High t) /\ uint64 (Low t)
  /\ High t * 2 ^ 64 + Low t = hex_value s.
Proof.
  intros E. destruct (accepted_dec s) as [Hok|Hno].
  - destruct Hok as [Hlen Hhex].
    destruct (TraceIDFromString_accepts s Hlen Hhex) as (t' & E' & H).
    rewrite E in E'. inversion E'; subst t'. auto.
  - destruct (TraceIDFromString_refuses s Hno) as (e & E' & _).
    rewrite E in E'. discriminate.
Qed.

End Acceptance.

(** ** Round trips *)

(** X1.  For every unsigned 64-bit SpanID, parsing its text succeeds and
    returns the SpanID. *)
Theorem SpanID_round_trip (s : SpanID) (Hs : uint64 s) :
  SpanIDFromString (SpanID_String s) = (s, None).
Proof. apply SpanIDFromString_String. exact Hs. Qed.

(** X2.  For every TraceID of unsigned 64-bit halves, the wire decoder
    applied to the output of the wire encoder succeeds and stores that
    TraceID, whatever the receiver held before. *)
Theorem TraceID_wire_round_trip (t t0 : TraceID)
    (Hhigh : uint64 (High t)) (Hlow : uint64 (Low t)) :
  snd (TraceID_MarshalJSONPB t) = None
  /\ TraceID_UnmarshalJSONPB t0 (fst (TraceID_MarshalJSONPB t)) = (t, None).
Proof.
  split; [reflexivity|].
  unfold TraceID_MarshalJSONPB. cbn [fst]. fold (quoted (TraceID_String t)).
  destruct (TraceID_String_numeral t Hhigh Hlow) as (_ & Len0 & Len1).
  rewrite TraceID_Unmarshal_quoted.
  - rewrite TraceID_String_parses by assumption. reflexivity.
  - destruct (Z.eq_dec (High t) 0) as [H0|H0];
      [specialize (Len0 H0) | specialize (Len1 H0)]; lia.
Qed.

(** X3.  For every unsigned 64-bit SpanID, the wire decoder applied to
    the output of the wire encoder succeeds and stores that SpanID,
    whatever the receiver held before. *)
Theorem SpanID_wire_round_trip (s s0 : SpanID) (Hs : uint64 s) :
  snd (SpanID_MarshalJSONPB s) = None
  /\ SpanID_UnmarshalJSONPB s0 (fst (SpanID_MarshalJSONPB s)) = (s, None).
Proof.
  split; [reflexivity|].
  unfold SpanID_MarshalJSONPB. cbn [fst]. fold (quoted (SpanID_String s)).
  rewrite SpanID_Unmarshal_quoted.
  - rewrite SpanIDFromString_String by assumption. reflexivity.
  - unfold SpanID_String. destruct (verb_x_spec s Hs) as (_ & Hlen). lia.
Qed.

(** ** The text of a TraceID as a 128-bit numeral *)

(** X4.  The text of a TraceID of unsigned 64-bit halves is the
    lower-case hexadecimal numeral, without leading zero padding, of the
    128-bit number [High * 2^64 + Low]. *)
Theorem TraceID_String_128bit (t : TraceID)
    (Hhigh : uint64 (High t)) (Hlow : uint64 (Low t)) :
  hex_rendering (High t * 2 ^ 64 + Low t) (TraceID_String t).
Proof. apply TraceID_String_numeral; assumption. Qed.

(** X5.  The text of a TraceID has 1 to 16 bytes when [High] is 0 and 17
    to 32 bytes otherwise, so that [TraceIDFromString] never refuses it
    for its length. *)
Theorem TraceID_String_length (t : TraceID)
    (Hhigh : uint64 (High t)) (Hlow : uint64 (Low t)) :
  (High t = 0 -> (1 <= String.length (TraceID_String t) <= 16)%nat)
  /\ (High t <> 0 -> (17 <= String.length (TraceID_String t) <= 32)%nat).
Proof. apply TraceID_String_numeral; assumption. Qed.

(** X6.  [TraceIDFromString] succeeds exactly on the strings of 1 to 32
    hexadecimal digits, of either case; the halves it returns are
    unsigned 64-bit integers and [High * 2^64 + Low] is the number the
    string denotes. *)
Theorem TraceIDFromString_accepts_iff (s : string) :
  (snd (TraceIDFromString s) = None
   <-> (1 <= String.length s <= 32)%nat /\ all_hex s = true)
  /\ (forall t, TraceIDFromString s = (t, None) ->
                uint64 (High t) /\ uint64 (Low t)
                /\ High t * 2 ^ 64 + Low t = hex_value s).
Proof.
  split; [split|].
  - intros E. destruct (TraceIDFromString s) as [t [e|]] eqn:P; [discriminate|].
    apply (TraceIDFromString_success s t P).
  - intros [Hlen Hhex].
    destruct (TraceIDFromString_accepts s Hlen Hhex) as (t & -> & _).
    reflexivity.
  - intros t P. apply (TraceIDFromString_success s t P).
Qed.

(** X7.  Parsing and printing normalises: when [TraceIDFromString]
    accepts a string, the text of the TraceID it returns is the unpadded
    lower-case numeral of the number the string denotes, and parsing that
    text returns the same TraceID. *)
Theorem TraceID_parse_then_print (s : string) (t : TraceID)
    (Hparse : TraceIDFromString s = (t, None)) :
  hex_rendering (hex_value s) (TraceID_String t)
  /\ TraceIDFromString (TraceID_String t) = (t, None).
Proof.
  destruct (TraceIDFromString_success s t Hparse) as (_ & Hh & Hl & V).
  split.
  - rewrite <- V. apply TraceID_String_numeral; assumption.
  - apply TraceID_String_parses; assumption.
Qed.

(** X8.  Different TraceIDs of unsigned 64-bit halves have different
    texts. *)
Theorem TraceID_String_distinct (t1 t2 : TraceID)
    (H1h : uint64 (High t1)) (H1l : uint64 (Low t1))
    (H2h : uint64 (High t2)) (H2l : uint64 (Low t2))
    (Hne : t1 <> t2) :
  TraceID_String t1 <> TraceID_String t2.
Proof.
  intros E. apply Hne.
  pose proof (TraceID_String_parses t1 H1h H1l) as P1.
  pose proof (TraceID_String_parses t2 H2h H2l) as P2.
  rewrite E in P1. rewrite P1 in P2. inversion P2. reflexivity.
Qed.

(** X9.  When [TraceIDFromString] or [SpanIDFromString] fails, the value
    returned is the zero value and the error is either the length error
    of the function or the syntax error of the conversion: the
    conversion's overflow error never comes out. *)
Theorem FromString_error_kinds (s : string) :
  (forall t e,
      TraceIDFromString s = (t, Some e) ->
      t = TraceID_zero
      /\ (e = Errorf ("TraceID cannot be longer than 32 hex characters: " ++ s)
          \/ exists part, e = NumError "ParseUint" part ErrSyntax))
  /\ (forall id e,
         SpanIDFromString s = (id, Some e) ->
         id = 0
         /\ (e = Errorf ("SpanID cannot be longer than 16 hex characters: " ++ s)
             \/ e = NumError "ParseUint" s ErrSyntax)).
Proof.
  split.
  - intros t e P. destruct (accepted_dec s) as [[Hlen Hhex]|Hno].
    + destruct (TraceIDFromString_accepts s Hlen Hhex) as (t' & E' & _).
      rewrite P in E'. discriminate.
    + destruct (TraceIDFromString_refuses s Hno) as (e' & E' & He).
      rewrite P in E'. inversion E'; subst. auto.
  - intros id e. unfold SpanIDFromString.
    destruct (Nat.ltb_spec 16 (String.length s)).
    + intros P. inversion P. auto.
    + rewrite ParseUint_short by assumption.
      destruct (valid_hex s); intros P; inversion P. auto.
Qed.

(** X10.  The wire decoder of TraceID succeeds exactly on the byte
    strings made of a double quote, 1 to 32 hexadecimal digits and a
    double quote. *)
Theorem TraceID_Unmarshal_accepts_iff (t0 : TraceID) (b : string) :
  snd (TraceID_UnmarshalJSONPB t0 b) = None
  <-> exists body,
        b = quoted body
        /\ (1 <= String.length body <= 32)%nat
        /\ all_hex body = true.
Proof.
  split.
  - intros E. destruct (TraceID_Unmarshal_accepted t0 b E) as [Hb Hlen].
    exists (slice b 1 (String.length b - 1)). split; [exact Hb|].
    rewrite Hb, TraceID_Unmarshal_quoted in E by exact Hlen.
    destruct (TraceIDFromString (slice b 1 (String.length b - 1)))
      as [t [e|]] eqn:P; [discriminate|].
    apply (TraceIDFromString_success _ t P).
  - intros (body & -> & Hlen & Hhex).
    rewrite TraceID_Unmarshal_quoted by lia.
    destruct (TraceIDFromString_accepts body Hlen Hhex) as (t & -> & _).
    reflexivity.
Qed.

(** ** Flags, set and read *)

(** X11.  For every Flags value: after [SetSampled] the value is sampled
    and is debug exactly when it was before; after [SetDebug] it is debug
    and is sampled exactly when it was before; setting a flag twice is
    setting it once, and the two setters commute. *)
Theorem Flags_compose (f : Flags) :
  IsSampled (SetSampled f) = true
  /\ IsDebug (SetSampled f) = IsDebug f
  /\ IsDebug (SetDebug f) = true
  /\ IsSampled (SetDebug f) = IsSampled f
  /\ SetSampled (SetSampled f) = SetSampled f
  /\ SetDebug (SetDebug f) = SetDebug f
  /\ SetSampled (SetDebug f) = SetDebug (SetSampled f).
Proof.
  unfold IsSampled, IsDebug, SetSampled, SetDebug.
  change sampledFlag with (2 ^ 0). change debugFlag with (2 ^ 1).
  rewrite !checkFlags_pow2 by lia. rewrite !setFlags_pow2_bits by lia.
  unfold setFlags.
  split; [reflexivity|]. split; [reflexivity|].
  split; [reflexivity|]. split; [reflexivity|].
  split; [|split].
  - rewrite <- Z.lor_assoc. reflexivity.
  - rewrite <- Z.lor_assoc. reflexivity.
  - rewrite <- !Z.lor_assoc. reflexivity.
Qed.

(** ** The derived parent *)

Local Open Scope list_scope.

Section ParentFacts.

Lemma parent_link_dec (traceID : TraceID) (r : SpanRef) :
  {parent_link traceID r} + {~ parent_link traceID r}.
Proof.
  unfold parent_link.
  destruct (TraceID_eq_dec (Ref_TraceID r) traceID), (Z.eq_dec (Ref_RefType r) ChildOf);
    tauto.
Qed.

(** The scan returns 0 or the span id of a parent link it met. *)
Lemma parent_loop_member (traceID : TraceID) (refs : list SpanRef) :
  parent_loop traceID refs = 0
  \/ In (mkSpanRef traceID (parent_loop traceID refs) ChildOf) refs.
Proof.
  induction refs as [|r refs IH]; simpl; [left; reflexivity|].
  destruct (TraceID_eqb (Ref_TraceID r) traceID && (Ref_RefType r =? ChildOf))
    eqn:E.
  - right. left. apply parent_cond_true in E. destruct E as [Et Ec].
    destruct r as [rt rs ry]. simpl in *. subst. reflexivity.
  - destruct IH as [IH|IH]; [left; exact IH | right; right; exact IH].
Qed.

(** Dropping references that are no parent links does not change the
    scan. *)
Lemma parent_loop_filter (traceID : TraceID) (keep : SpanRef -> bool)
    (refs : list SpanRef) :
  (forall r, In r refs -> parent_link traceID r -> keep r = true) ->
  parent_loop traceID (filter keep refs) = parent_loop traceID refs.
Proof.
  induction refs as [|r refs IH]; intros Hkeep; simpl; [reflexivity|].
  destruct (TraceID_eqb (Ref_TraceID r) traceID && (Ref_RefType r =? ChildOf))
    eqn:E.
  - rewrite (Hkeep r (or_introl eq_refl) (proj1 (parent_cond_true _ _) E)).
    simpl. rewrite E. reflexivity.
  - destruct (keep r); simpl; [rewrite E|]; apply IH;
      intros x Hin; apply Hkeep; right; exact Hin.
Qed.

(** Replacing an entry that is no parent link by another that is none
    does not change the scan. *)
Lemma parent_loop_swap (traceID : TraceID) (pre : list SpanRef)
    (r r' : SpanRef) (post : list SpanRef) :
  ~ parent_link traceID r -> ~ parent_link traceID r' ->
  parent_loop traceID (pre ++ r :: post) = parent_loop traceID (pre ++ r' :: post).
Proof.
  intros Hr Hr'. apply parent_cond_false in Hr, Hr'.
  induction pre as [|x pre IH]; simpl.
  - rewrite Hr, Hr'. reflexivity.
  - rewrite IH. reflexivity.
Qed.

(** The first parent link is itself what [ReplaceParentID] looks for. *)
Lemma parent_link_is_target (traceID : TraceID) (refs : list SpanRef) :
  Exists (parent_link traceID) refs ->
  Exists (replace_target traceID (parent_loop traceID refs)) refs.
Proof.
  intros HE.
  destruct (first_split _ _ (parent_link_dec traceID) HE)
    as (pre & p & post & -> & Hpre & Hp).
  rewrite parent_loop_skip by assumption. simpl.
  rewrite (proj2 (parent_cond_true _ _) Hp).
  apply Exists_app. right. constructor. split; [reflexivity | apply Hp].
Qed.

(** When the scan of [ReplaceParentID] finds an entry, the references
    afterwards are the same but for one span id. *)
Lemma replace_loop_shape (traceID : TraceID) (old new : SpanID)
    (refs : list SpanRef) :
  Exists (replace_target traceID old) refs ->
  exists refs',
    replace_loop traceID old new refs = Some refs'
    /\ List.length refs' = List.length refs
    /\ map Ref_TraceID refs' = map Ref_TraceID refs
    /\ map Ref_RefType refs' = map Ref_RefType refs.
Proof.
  intros HE.
  destruct (first_split _ _ (replace_target_dec traceID old) HE)
    as (pre & r & post & -> & Hpre & Hr).
  rewrite replace_loop_skip by assumption. simpl.
  rewrite (proj2 (replace_cond_true _ _ _) Hr). simpl.
  eexists. split; [reflexivity|].
  rewrite !List.length_app, !map_app. simpl. auto.
Qed.

(** When every entry the scan of [ReplaceParentID] can stop at is of type
    [ChildOf], the scan rewrites the first parent link. *)
Lemma replace_loop_parent (traceID : TraceID) (new : SpanID)
    (refs : list SpanRef) :
  Exists (parent_link traceID) refs ->
  (forall r, In r refs ->
             replace_target traceID (parent_loop traceID refs) r ->
             Ref_RefType r = ChildOf) ->
  exists refs',
    replace_loop traceID (parent_loop traceID refs) new refs = Some refs'
    /\ parent_loop traceID refs' = new.
Proof.
  generalize (eq_refl (parent_loop traceID refs)).
  generalize (parent_loop traceID refs) at 2 3 4 as old.
  intros old. induction refs as [|x rest IH]; intros Hold HE Hshadow.
  - inversion HE.
  - cbn [replace_loop].
    destruct ((Ref_SpanID x =? old) && TraceID_eqb (Ref_TraceID x) traceID)
      eqn:Ex.
    + apply replace_cond_true in Ex.
      pose proof (Hshadow x (or_introl eq_refl) Ex) as Hc.
      eexists. split; [reflexivity|]. simpl.
      destruct Ex as [_ Et].
      rewrite (proj2 (parent_cond_true traceID x) (conj Et Hc)).
      reflexivity.
    + apply replace_cond_false in Ex.
      assert (Hx : ~ parent_link traceID x).
      { intros Hp. apply Ex. simpl in Hold.
        rewrite (proj2 (parent_cond_true _ _) Hp) in Hold.
        split; [exact Hold | apply Hp]. }
      simpl in Hold. rewrite (proj2 (parent_cond_false _ _) Hx) in Hold.
      destruct IH as (refs' & E & Hp).
      * exact Hold.
      * inversion HE; subst; [contradiction | assumption].
      * intros r Hin. apply Hshadow. right. exact Hin.
      * rewrite E. eexists. split; [reflexivity|]. simpl.
        rewrite (proj2 (parent_cond_false _ _) Hx). exact Hp.
Qed.

(** Rewriting the span id looked for by itself changes nothing. *)
Lemma replace_loop_same (traceID : TraceID) (old : SpanID)
    (refs refs' : list SpanRef) :
  replace_loop traceID old old refs = Some refs' -> refs' = refs.
Proof.
  revert refs'. induction refs as [|x rest IH]; intros refs'; simpl;
    [discriminate|].
  destruct ((Ref_SpanID x =? old) && TraceID_eqb (Ref_TraceID x) traceID) eqn:Ex.
  - intros E. inversion E. apply replace_cond_true in Ex. destruct Ex as [Es _].
    destruct x as [xt xs xy]. unfold set_SpanID. simpl in *. subst. reflexivity.
  - destruct (replace_loop traceID old old rest) as [rest'|]; [|discriminate].
    intros E. inversion E. f_equal. apply IH. reflexivity.
Qed.

End ParentFacts.

(** X12.  [ParentSpanID] returns 0 or the span id of a [ChildOf]
    reference of the span's own trace that is among the references: it
    never makes an id up. *)
Theorem ParentSpanID_zero_or_member (s : Span) :
  ParentSpanID s = 0
  \/ In (mkSpanRef (Span_TraceID s) (ParentSpanID s) ChildOf)
        (Span_References s).
Proof. apply parent_loop_member. Qed.

(** X13.  References into other traces and references of other types do
    not count: removing any references, as long as every [ChildOf]
    reference of the span's own trace is kept, leaves [ParentSpanID] as
    it is. *)
Theorem ParentSpanID_filter (s : Span) (keep : SpanRef -> bool)
    (Hkeep : forall r, In r (Span_References s) ->
                       parent_link (Span_TraceID s) r -> keep r = true) :
  ParentSpanID (set_References s (filter keep (Span_References s)))
  = ParentSpanID s.
Proof. unfold ParentSpanID. simpl. apply parent_loop_filter. exact Hkeep. Qed.

(** X14.  On a span that has a [ChildOf] reference of its own trace,
    [ReplaceParentID] always finds an entry to rewrite and never calls
    [MaybeAddParentSpanID]: the number of references, their trace ids and
    their types, in order, and the other fields of the span are as
    before. *)
Theorem ReplaceParentID_keeps_shape (s : Span) (newParentID : SpanID)
    (Hparent : Exists (parent_link (Span_TraceID s)) (Span_References s)) :
  (exists refs',
      replace_loop (Span_TraceID s) (ParentSpanID s) newParentID
                   (Span_References s) = Some refs'
      /\ ReplaceParentID s newParentID = set_References s refs')
  /\ List.length (Span_References (ReplaceParentID s newParentID))
     = List.length (Span_References s)
  /\ map Ref_TraceID (Span_References (ReplaceParentID s newParentID))
     = map Ref_TraceID (Span_References s)
  /\ map Ref_RefType (Span_References (ReplaceParentID s newParentID))
     = map Ref_RefType (Span_References s)
  /\ Span_TraceID (ReplaceParentID s newParentID) = Span_TraceID s
  /\ Span_SpanID (ReplaceParentID s newParentID) = Span_SpanID s
  /\ Span_OperationName (ReplaceParentID s newParentID) = Span_OperationName s
  /\ Span_Flags (ReplaceParentID s newParentID) = Span_Flags s.
Proof.
  destruct (replace_loop_shape (Span_TraceID s) (ParentSpanID s) newParentID
              (Span_References s) (parent_link_is_target _ _ Hparent))
    as (refs' & E & Hlen & Ht & Hy).
  unfold ReplaceParentID. rewrite E. simpl.
  split; [exists refs'; split; reflexivity|]. auto 10.
Qed.

(** X15.  On a span that has a [ChildOf] reference of its own trace, and
    where every reference of that trace carrying the parent's span id is
    of type [ChildOf], the parent derived after [ReplaceParentID] is the
    new id. *)
Theorem ReplaceParentID_sets_parent (s : Span) (newParentID : SpanID)
    (Hparent : Exists (parent_link (Span_TraceID s)) (Span_References s))
    (Hshadow : forall r, In r (Span_References s) ->
                         replace_target (Span_TraceID s) (ParentSpanID s) r ->
                         Ref_RefType r = ChildOf) :
  ParentSpanID (ReplaceParentID s newParentID) = newParentID.
Proof.
  destruct (replace_loop_parent (Span_TraceID s) newParentID
              (Span_References s) Hparent Hshadow) as (refs' & E & Hp).
  unfold ReplaceParentID. fold (ParentSpanID s) in E. rewrite E.
  unfold ParentSpanID. simpl. exact Hp.
Qed.

(** X16.  When the first reference of the span's trace carrying the
    parent's span id is not of type [ChildOf], the references after
    [ReplaceParentID] are those before with the span id of that reference
    set to the new id, and the derived parent stays what it was. *)
Theorem ReplaceParentID_shadowed (s : Span) (newParentID : SpanID)
    (pre : list SpanRef) (r : SpanRef) (post : list SpanRef)
    (Hrefs : Span_References s = pre ++ r :: post)
    (Hpre : Forall (fun x => ~ replace_target (Span_TraceID s) (ParentSpanID s) x)
                   pre)
    (Hr : replace_target (Span_TraceID s) (ParentSpanID s) r)
    (Hty : Ref_RefType r <> ChildOf) :
  Span_References (ReplaceParentID s newParentID)
  = pre ++ mkSpanRef (Ref_TraceID r) newParentID (Ref_RefType r) :: post
  /\ ParentSpanID (ReplaceParentID s newParentID) = ParentSpanID s.
Proof.
  pose proof (ReplaceParentID_found_refs s newParentID pre r post Hrefs Hpre Hr)
    as E.
  destruct (ReplaceParentID_other_fields s newParentID) as (Htid & _).
  split; [exact E|].
  unfold ParentSpanID. rewrite E, Htid, Hrefs.
  symmetry. apply parent_loop_swap; unfold parent_link; simpl; tauto.
Qed.

(** X17.  On a span that has a [ChildOf] reference of its own trace,
    replacing the parent id by the current parent id changes nothing. *)
Theorem ReplaceParentID_same_id (s : Span)
    (Hparent : Exists (parent_link (Span_TraceID s)) (Span_References s)) :
  ReplaceParentID s (ParentSpanID s) = s.
Proof.
  destruct (replace_loop_shape (Span_TraceID s) (ParentSpanID s) (ParentSpanID s)
              (Span_References s) (parent_link_is_target _ _ Hparent))
    as (refs' & E & _).
  unfold ReplaceParentID. rewrite E.
  rewrite (replace_loop_same _ _ _ _ E).
  destruct s. reflexivity.
Qed.

(** ** The further statements at concrete inputs *)

Lemma SpanID_round_trip_witness :
  uint64 67 /\ SpanIDFromString (SpanID_String 67) = (67, None).
Proof.
  assert (H : uint64 67) by (unfold uint64; lia).
  split; [exact H | exact (SpanID_round_trip 67 H)].
Defined.

Lemma TraceID_wire_round_trip_witness :
  uint64 42 /\ uint64 67
  /\ TraceID_UnmarshalJSONPB TraceID_zero
       (fst (TraceID_MarshalJSONPB (mkTraceID 42 67)))
     = (mkTraceID 42 67, None).
Proof.
  assert (H1 : uint64 42) by (unfold uint64; lia).
  assert (H2 : uint64 67) by (unfold uint64; lia).
  split; [exact H1|]. split; [exact H2|].
  exact (proj2 (TraceID_wire_round_trip (mkTraceID 42 67) TraceID_zero H1 H2)).
Defined.

Lemma SpanID_wire_round_trip_witness :
  uint64 67
  /\ SpanID_UnmarshalJSONPB 5 (fst (SpanID_MarshalJSONPB 67)) = (67, None).
Proof.
  assert (H : uint64 67) by (unfold uint64; lia).
  split; [exact H | exact (proj2 (SpanID_wire_round_trip 67 5 H))].
Defined.

Lemma TraceID_String_128bit_witness :
  uint64 42 /\ uint64 67
  /\ hex_rendering (42 * 2 ^ 64 + 67) (TraceID_String (mkTraceID 42 67)).
Proof.
  assert (H1 : uint64 42) by (unfold uint64; lia).
  assert (H2 : uint64 67) by (unfold uint64; lia).
  split; [exact H1|]. split; [exact H2|].
  exact (TraceID_String_128bit (mkTraceID 42 67) H1 H2).
Defined.

Lemma TraceID_String_length_witness :
  uint64 42 /\ uint64 67
  /\ (17 <= String.length (TraceID_String (mkTraceID 42 67)) <= 32)%nat.
Proof.
  assert (H1 : uint64 42) by (unfold uint64; lia).
  assert (H2 : uint64 67) by (unfold uint64; lia).
  split; [exact H1|]. split; [exact H2|].
  apply (proj2 (TraceID_String_length (mkTraceID 42 67) H1 H2)).
  simpl. lia.
Defined.

Lemma TraceID_parse_then_print_witness :
  TraceIDFromString "00AbC" = (mkTraceID 0 2748, None)
  /\ hex_rendering (hex_value "00AbC") (TraceID_String (mkTraceID 0 2748)).
Proof.
  assert (H : TraceIDFromString "00AbC" = (mkTraceID 0 2748, None))
    by (vm_compute; reflexivity).
  split; [exact H|].
  exact (proj1 (TraceID_parse_then_print "00AbC" (mkTraceID 0 2748) H)).
Defined.

Lemma TraceID_String_distinct_witness :
  TraceID_String (mkTraceID 0 1) <> TraceID_String (mkTraceID 1 0).
Proof.
  apply (TraceID_String_distinct (mkTraceID 0 1) (mkTraceID 1 0));
    try (unfold uint64; simpl; lia).
  intros E. discriminate E.
Defined.

Lemma ParentSpanID_filter_witness :
  ParentSpanID
    (set_References sample_span
       (filter (fun r => TraceID_eqb (Ref_TraceID r) sample_trace)
               (Span_References sample_span)))
  = ParentSpanID sample_span.
Proof.
  apply (ParentSpanID_filter sample_span
           (fun r => TraceID_eqb (Ref_TraceID r) sample_trace)).
  intros r _ [Ht _]. apply TraceID_eqb_eq. exact Ht.
Defined.

Lemma ReplaceParentID_keeps_shape_witness :
  List.length (Span_References (ReplaceParentID sample_span 7)) = 3%nat.
Proof.
  apply (ReplaceParentID_keeps_shape sample_span 7).
  apply Exists_cons_tl. apply Exists_cons_hd. split; reflexivity.
Defined.

Lemma ReplaceParentID_sets_parent_witness :
  ParentSpanID (ReplaceParentID sample_span 7) = 7.
Proof.
  apply (ReplaceParentID_sets_parent sample_span 7).
  - apply Exists_cons_tl. apply Exists_cons_hd. split; reflexivity.
  - intros r Hin _. simpl in Hin.
    destruct Hin as [<-|[<-|[<-|[]]]]; reflexivity.
Defined.

Lemma ReplaceParentID_shadowed_witness :
  ParentSpanID shadowed_span = 123
  /\ Span_References (ReplaceParentID shadowed_span 7)
     = [ mkSpanRef sample_trace 7 FollowsFrom;
         mkSpanRef sample_trace 123 ChildOf ]
  /\ ParentSpanID (ReplaceParentID shadowed_span 7) = ParentSpanID shadowed_span.
Proof.
  split; [reflexivity|].
  apply (ReplaceParentID_shadowed shadowed_span 7
           [] (mkSpanRef sample_trace 123 FollowsFrom)
           [mkSpanRef sample_trace 123 ChildOf]).
  - reflexivity.
  - constructor.
  - split; reflexivity.
  - discriminate.
Defined.

Lemma ReplaceParentID_same_id_witness :
  ReplaceParentID sample_span (ParentSpanID sample_span) = sample_span.
Proof.
  apply (ReplaceParentID_same_id sample_span).
  apply Exists_cons_tl. apply Exists_cons_hd. split; reflexivity.
Defined.
